(** * World Radio: a shallow embedding of [src/App.tsx]

    The application is one React component.  Its state variables, its two
    asynchronous loaders, the derived search view and the click handler are
    embedded below as executable definitions, keeping the names of the
    source.

    Conventions of the embedding.
    - A JavaScript string is a [string] that holds the UTF-8 bytes of its
      text.  [toLowerCase] is the lower-case mapping of Unicode with its
      final-sigma rule, written out for Basic Latin, Latin-1 Supplement,
      the Greek letters and U+0130; what is proved of letters beyond the
      mapping itself is stated for Basic Latin texts.  [includes] is the
      substring search of [String.prototype].
    - A JavaScript [number] that came out of a JSON document is a finite
      binary fraction; it is embedded as a rational and [Math_round] is
      [floor (x + 1/2)], as ECMAScript defines it on finite values.
    - A handler is a computation in the monad [M]: it reads and writes the
      component state, appends to a trace of the calls it makes on the
      outside world (audio element, HTTP client, console), and may throw.
    - An [await] splits an [async] function in two: the part that issues the
      request, and the part that resumes with the settled promise. *)

From Stdlib Require Import String Ascii List Bool Arith ZArith NArith QArith Qround Qabs Lia Lqa.
Import ListNotations.

Local Open Scope string_scope.
Local Open Scope list_scope.

(* ================================================================== *)
(** ** Strings *)

(** A [string] holds the UTF-8 bytes of a text, as a string literal of this
    file does; [decode] gives its code points and [encode] the bytes of a
    list of code points.  A byte that begins no UTF-8 sequence decodes to
    U+FFFD. *)
Module Utf8.

Definition continuation (b : N) : bool := (128 <=? b)%N && (b <=? 191)%N.

Fixpoint decode (s : string) : list N :=
  match s with
  | EmptyString => []
  | String a0 r0 =>
      let b0 := N_of_ascii a0 in
      if (b0 <? 128)%N then b0 :: decode r0
      else
        match r0 with
        | String a1 r1 =>
            let b1 := N_of_ascii a1 in
            if (194 <=? b0)%N && (b0 <=? 223)%N && continuation b1
            then ((b0 - 192) * 64 + (b1 - 128))%N :: decode r1
            else
              match r1 with
              | String a2 r2 =>
                  let b2 := N_of_ascii a2 in
                  if (224 <=? b0)%N && (b0 <=? 239)%N &&
                     continuation b1 && continuation b2
                  then ((b0 - 224) * 4096 + (b1 - 128) * 64 + (b2 - 128))%N
                       :: decode r2
                  else
                    match r2 with
                    | String a3 r3 =>
                        let b3 := N_of_ascii a3 in
                        if (240 <=? b0)%N && (b0 <=? 244)%N &&
                           continuation b1 && continuation b2 && continuation b3
                        then ((b0 - 240) * 262144 + (b1 - 128) * 4096 +
                              (b2 - 128) * 64 + (b3 - 128))%N :: decode r3
                        else 65533%N :: decode r0
                    | EmptyString => 65533%N :: decode r0
                    end
              | EmptyString => 65533%N :: decode r0
              end
        | EmptyString => [65533%N]
        end
  end.

Definition encode_point (c : N) : string :=
  if (c <? 128)%N then String (ascii_of_N c) ""
  else if (c <? 2048)%N then
    String (ascii_of_N (192 + c / 64)) (String (ascii_of_N (128 + c mod 64)) "")
  else if (c <? 65536)%N then
    String (ascii_of_N (224 + c / 4096))
      (String (ascii_of_N (128 + (c / 64) mod 64))
         (String (ascii_of_N (128 + c mod 64)) ""))
  else
    String (ascii_of_N (240 + c / 262144))
      (String (ascii_of_N (128 + (c / 4096) mod 64))
         (String (ascii_of_N (128 + (c / 64) mod 64))
            (String (ascii_of_N (128 + c mod 64)) ""))).

Fixpoint encode (l : list N) : string :=
  match l with
  | [] => ""
  | c :: r => (encode_point c ++ encode r)%string
  end.

End Utf8.

Module JsString.

Definition between (lo hi c : N) : bool := (lo <=? c)%N && (c <=? hi)%N.

(** [String.prototype.toLowerCase] is the lower-case mapping of Unicode,
    with the one rule that looks at the neighbours of a character: a capital
    sigma becomes a final sigma after a cased letter when no cased letter
    follows (case-ignorable characters skipped on either side).  The tables
    below are those of Unicode for U+0000..U+00FF (Basic Latin and Latin-1
    Supplement), U+0130 with U+0307, and the Greek letters U+0391..U+03A9
    and U+03B1..U+03C9; every other code point is taken as caseless. *)
Definition cased (c : N) : bool :=
  between 0x41 0x5A c || between 0x61 0x7A c ||
  (c =? 0xAA)%N || (c =? 0xB5)%N || (c =? 0xBA)%N ||
  between 0xC0 0xD6 c || between 0xD8 0xF6 c || between 0xF8 0xFF c ||
  (c =? 0x130)%N ||
  between 0x391 0x3A1 c || between 0x3A3 0x3A9 c || between 0x3B1 0x3C9 c.

Definition case_ignorable (c : N) : bool :=
  existsb (N.eqb c)
    [0x27; 0x2E; 0x3A; 0x5E; 0x60; 0xA8; 0xAD; 0xAF; 0xB4; 0xB7; 0xB8; 0x307]%N.

(** The mapping of one code point; U+0130 gives two. *)
Definition lower_point (c : N) : list N :=
  if between 0x41 0x5A c || between 0xC0 0xD6 c || between 0xD8 0xDE c ||
     between 0x391 0x3A1 c || between 0x3A3 0x3A9 c
  then [(c + 0x20)%N]
  else if (c =? 0x130)%N then [0x69; 0x307]%N
  else [c].

(** Is the next character that is not case-ignorable a cased letter? *)
Fixpoint cased_next (l : list N) : bool :=
  match l with
  | [] => false
  | c :: r => if case_ignorable c then cased_next r else cased c
  end.

(** [before] is read backwards from the sigma, [after] forwards. *)
Definition final_sigma (before after : list N) : bool :=
  cased_next before && negb (cased_next after).

Fixpoint lower_points (before l : list N) : list N :=
  match l with
  | [] => []
  | c :: after =>
      (if (c =? 0x3A3)%N && final_sigma before after then [0x3C2%N]
       else lower_point c)
      ++ lower_points (c :: before) after
  end.

Definition toLowerCase (s : string) : string :=
  Utf8.encode (lower_points [] (Utf8.decode s)).

(** [startsWith s q]: [q] occurs in [s] at position 0. *)
Fixpoint startsWith (s q : string) {struct q} : bool :=
  match q with
  | EmptyString => true
  | String a q' =>
      match s with
      | EmptyString => false
      | String b s' => Ascii.eqb a b && startsWith s' q'
      end
  end.

(** [includes s q]: [q] occurs in [s] at some position.  Between two
    well-formed texts an occurrence of the bytes is an occurrence of the
    code units and conversely. *)
Fixpoint includes (s q : string) : bool :=
  startsWith s q ||
  match s with
  | EmptyString => false
  | String _ s' => includes s' q
  end.

(** The wording of the specification.  Two characters are the same letter
    when they are equal or are the capital and the small form of one letter
    of the alphabet; two strings are equal up to case when they are so
    character by character; [q] is a case-insensitive substring of [x] when
    some contiguous piece of [x] is [q] up to case. *)
Definition capitals : string := "ABCDEFGHIJKLMNOPQRSTUVWXYZ".
Definition smalls : string := "abcdefghijklmnopqrstuvwxyz".

Definition letter_pairs : list (ascii * ascii) :=
  combine (list_ascii_of_string capitals) (list_ascii_of_string smalls).

Definition same_letter (a b : ascii) : Prop :=
  a = b \/ In (a, b) letter_pairs \/ In (b, a) letter_pairs.

Inductive eq_ignoring_case : string -> string -> Prop :=
| eq_case_nil : eq_ignoring_case EmptyString EmptyString
| eq_case_cons a b s t :
    same_letter a b -> eq_ignoring_case s t ->
    eq_ignoring_case (String a s) (String b t).

Definition ci_substring (q x : string) : Prop :=
  exists pre mid post, x = (pre ++ mid ++ post)%string /\ eq_ignoring_case mid q.

(** What the code tests: the lower-cased [q] occurs in the lower-cased
    [x]. *)
Definition lowered_substring (q x : string) : Prop :=
  exists pre post, toLowerCase x = (pre ++ toLowerCase q ++ post)%string.

(** A text of Basic Latin characters (U+0000..U+007F): one byte each. *)
Fixpoint basic_latin (s : string) : bool :=
  match s with
  | EmptyString => true
  | String a r => (N_of_ascii a <? 128)%N && basic_latin r
  end.

(** On such a text [toLowerCase] works byte by byte (see
    [toLowerCase_basic_latin]). *)
Definition lower_byte (a : ascii) : ascii :=
  if between 0x41 0x5A (N_of_ascii a) then ascii_of_N (N_of_ascii a + 0x20) else a.

Fixpoint lower_bytes (s : string) : string :=
  match s with
  | EmptyString => EmptyString
  | String a r => String (lower_byte a) (lower_bytes r)
  end.

End JsString.
Import JsString.

(* ================================================================== *)
(** ** Data model *)

Definition number := Q.

Record RadioStation := {
  id : string;
  name : string;
  country : string;
  url : string;
  favicon : string;
  geo_lat : number;
  geo_long : number;
  city : string
}.

Record WeatherData := {
  temperature : number;
  description : string;
  icon : string
}.

(** [Math.round]: the integer closest to [x], the larger one on a tie. *)
Definition Math_round (x : number) : number :=
  inject_Z (Qfloor (x + (1 # 2))).

(* ================================================================== *)
(** ** Search filter (App.tsx, [filteredStations]) *)

Definition station_matches (searchQuery : string) (station : RadioStation) : bool :=
  includes (toLowerCase (name station)) (toLowerCase searchQuery) ||
  includes (toLowerCase (country station)) (toLowerCase searchQuery) ||
  includes (toLowerCase (city station)) (toLowerCase searchQuery).

Definition filteredStations (stations : list RadioStation) (searchQuery : string)
  : list RadioStation :=
  filter (station_matches searchQuery) stations.

(** The wording of the specification for the filtered view: [R] holds
    exactly the members of [S] that satisfy [P], in the order of [S]. *)
Inductive exactly_the_members (P : RadioStation -> Prop)
  : list RadioStation -> list RadioStation -> Prop :=
| members_nil : exactly_the_members P [] []
| members_keep s S R :
    P s -> exactly_the_members P S R -> exactly_the_members P (s :: S) (s :: R)
| members_skip s S R :
    ~ P s -> exactly_the_members P S R -> exactly_the_members P (s :: S) R.

Definition query_matches (Q : string) (s : RadioStation) : Prop :=
  ci_substring Q (name s) \/ ci_substring Q (country s) \/ ci_substring Q (city s).

(** What the code tests of a station. *)
Definition lowered_match (Q : string) (s : RadioStation) : Prop :=
  lowered_substring Q (name s) \/ lowered_substring Q (country s) \/
  lowered_substring Q (city s).

Definition basic_latin_station (s : RadioStation) : bool :=
  basic_latin (name s) && basic_latin (country s) && basic_latin (city s).

(* ================================================================== *)
(** ** The outside world *)

(** What a handler can throw: a rejected request, or the [TypeError] of a
    property read on [undefined]. *)
Inductive JsError :=
| AxiosError (message : string)
| TypeError (message : string).

(** The value of a request parameter. *)
Inductive Param :=
| PNum (n : Z)
| PBool (b : bool)
| PStr (s : string)
| PEnv (variable : string).

(** The calls the component makes on the outside world, in the order it
    makes them. *)
Inductive Effect :=
| AxiosGet (address : string) (params : list (string * Param))
| ConsoleError (label : string) (error : JsError)
| AudioPause
| AudioSetSrc (src : string)
| AudioPlay.

(** The promise of a request, once settled. *)
Inductive Settled (A : Type) :=
| Fulfilled (data : A)
| Rejected (reason : JsError).
Arguments Fulfilled {A} data.
Arguments Rejected {A} reason.

(** The audio element, [new Audio()]: the source the component assigned
    and the flag that its [pause()] and [play()] set.  What the browser does
    to the element on its own account (a load that fails, a [play()] it
    refuses) is not part of the record. *)
Module Audio.
Record t := { src : string; paused : bool }.
Definition new : t := {| src := ""; paused := true |}.
Definition pause (a : t) : t := {| src := src a; paused := true |}.
Definition play (a : t) : t := {| src := src a; paused := false |}.
Definition set_src (u : string) (a : t) : t := {| src := u; paused := paused a |}.
End Audio.

(** The body of the weather service's answer, [response.data]. *)
Module OpenWeather.
Record Main := { temp : number }.
Record Condition := { description : string; icon : string }.
Record Response := { main : Main; weather : list Condition }.
End OpenWeather.

(* ================================================================== *)
(** ** Component state (the [useState] cells of [App]) *)

Record AppState := {
  stations : list RadioStation;
  searchQuery : string;
  loading : bool;
  currentStation : option RadioStation;
  isPlaying : bool;
  weatherData : option WeatherData;
  audio : Audio.t;
  mapCenter : number * number
}.

Definition initialState : AppState := {|
  stations := [];
  searchQuery := "";
  loading := true;
  currentStation := None;
  isPlaying := false;
  weatherData := None;
  audio := Audio.new;
  mapCenter := (20 # 1, 0 # 1)
|}.

(* ================================================================== *)
(** ** The handler monad: state, trace, exceptions *)

Inductive Outcome (A : Type) :=
| Normal (a : A)
| Thrown (e : JsError).
Arguments Normal {A} a.
Arguments Thrown {A} e.

Definition M (A : Type) : Type := AppState -> Outcome A * AppState * list Effect.

Definition ret {A} (a : A) : M A := fun st => (Normal a, st, []).

Definition bind {A B} (c : M A) (k : A -> M B) : M B :=
  fun st =>
    match c st with
    | (Normal a, st1, t1) =>
        match k a st1 with (o, st2, t2) => (o, st2, t1 ++ t2) end
    | (Thrown e, st1, t1) => (Thrown e, st1, t1)
    end.

Definition throw {A} (e : JsError) : M A := fun st => (Thrown e, st, []).

(** [try { body } catch (error) { handler error }] *)
Definition try_catch {A} (body : M A) (handler : JsError -> M A) : M A :=
  fun st =>
    match body st with
    | (Normal a, st1, t1) => (Normal a, st1, t1)
    | (Thrown e, st1, t1) =>
        match handler e st1 with (o, st2, t2) => (o, st2, t1 ++ t2) end
    end.

(** [try { body } finally { final }] *)
Definition try_finally {A} (body : M A) (final : M unit) : M A :=
  fun st =>
    match body st with
    | (o, st1, t1) =>
        match final st1 with
        | (Normal _, st2, t2) => (o, st2, t1 ++ t2)
        | (Thrown e, st2, t2) => (Thrown e, st2, t1 ++ t2)
        end
    end.

(** The values of the state cells as the running render closed over them. *)
Definition rendered : M AppState := fun st => (Normal st, st, []).

Definition update (f : AppState -> AppState) : M unit :=
  fun st => (Normal tt, f st, []).

Definition emit (e : Effect) : M unit := fun st => (Normal tt, st, [e]).

Notation "x <- c ;; k" := (bind c (fun x => k))
  (at level 61, c at next level, right associativity).
Notation "c ;; k" := (bind c (fun _ => k))
  (at level 61, right associativity).

Definition state_of {A} (r : Outcome A * AppState * list Effect) : AppState :=
  snd (fst r).
Definition trace_of {A} (r : Outcome A * AppState * list Effect) : list Effect :=
  snd r.
Definition outcome_of {A} (r : Outcome A * AppState * list Effect) : Outcome A :=
  fst (fst r).

(* ================================================================== *)
(** ** State setters and primitive calls *)

Definition setStations (v : list RadioStation) : M unit :=
  update (fun st => {|
    stations := v; searchQuery := searchQuery st; loading := loading st;
    currentStation := currentStation st; isPlaying := isPlaying st;
    weatherData := weatherData st; audio := audio st; mapCenter := mapCenter st |}).

Definition setSearchQuery (v : string) : M unit :=
  update (fun st => {|
    stations := stations st; searchQuery := v; loading := loading st;
    currentStation := currentStation st; isPlaying := isPlaying st;
    weatherData := weatherData st; audio := audio st; mapCenter := mapCenter st |}).

Definition setLoading (v : bool) : M unit :=
  update (fun st => {|
    stations := stations st; searchQuery := searchQuery st; loading := v;
    currentStation := currentStation st; isPlaying := isPlaying st;
    weatherData := weatherData st; audio := audio st; mapCenter := mapCenter st |}).

Definition setCurrentStation (v : RadioStation) : M unit :=
  update (fun st => {|
    stations := stations st; searchQuery := searchQuery st; loading := loading st;
    currentStation := Some v; isPlaying := isPlaying st;
    weatherData := weatherData st; audio := audio st; mapCenter := mapCenter st |}).

Definition setIsPlaying (v : bool) : M unit :=
  update (fun st => {|
    stations := stations st; searchQuery := searchQuery st; loading := loading st;
    currentStation := currentStation st; isPlaying := v;
    weatherData := weatherData st; audio := audio st; mapCenter := mapCenter st |}).

Definition setWeatherData (v : WeatherData) : M unit :=
  update (fun st => {|
    stations := stations st; searchQuery := searchQuery st; loading := loading st;
    currentStation := currentStation st; isPlaying := isPlaying st;
    weatherData := Some v; audio := audio st; mapCenter := mapCenter st |}).

Definition setMapCenter (v : number * number) : M unit :=
  update (fun st => {|
    stations := stations st; searchQuery := searchQuery st; loading := loading st;
    currentStation := currentStation st; isPlaying := isPlaying st;
    weatherData := weatherData st; audio := audio st; mapCenter := v |}).

(** The audio element is one object, held in a state cell that is never
    set again: a call on it changes the object and is recorded. *)
Definition on_audio (f : Audio.t -> Audio.t) : M unit :=
  update (fun st => {|
    stations := stations st; searchQuery := searchQuery st; loading := loading st;
    currentStation := currentStation st; isPlaying := isPlaying st;
    weatherData := weatherData st; audio := f (audio st); mapCenter := mapCenter st |}).

Definition audio_pause : M unit := on_audio Audio.pause ;; emit AudioPause.
Definition audio_play : M unit := on_audio Audio.play ;; emit AudioPlay.
Definition audio_set_src (u : string) : M unit :=
  on_audio (Audio.set_src u) ;; emit (AudioSetSrc u).

Definition console_error (label : string) (error : JsError) : M unit :=
  emit (ConsoleError label error).

(** [await p]: the value of a fulfilled promise, the reason of a rejected
    one thrown. *)
Definition await {A} (p : Settled A) : M A :=
  match p with
  | Fulfilled data => ret data
  | Rejected reason => throw reason
  end.

(** [l[i].field]: out of range [l[i]] is [undefined] and the property read
    throws. *)
Definition element {A} (l : list A) (i : nat) : M A :=
  match nth_error l i with
  | Some x => ret x
  | None => throw (TypeError "Cannot read properties of undefined")
  end.

(** An [async] function with one [await]: the request it issues, and what
    it does when the promise has settled. *)
Record Async (R : Type) := {
  request : Effect;
  resume : Settled R -> M unit
}.
Arguments request {R} a.
Arguments resume {R} a response.

Definition start {R} (f : Async R) : M unit := emit (request f).

(* ================================================================== *)
(** ** The loaders *)

Definition stations_address : string :=
  "https://de1.api.radio-browser.info/json/stations/search".

Definition weather_address : string :=
  "https://api.openweathermap.org/data/2.5/weather".

Definition fetchStations : Async (list RadioStation) := {|
  request :=
    AxiosGet stations_address
      [("limit", PNum 100); ("hidebroken", PBool true);
       ("has_extended_info", PBool true); ("has_geo_info", PBool true)];
  resume := fun response =>
    try_finally
      (try_catch
         (data <- await response ;;
          setStations data ;;
          if (0 <? length data)%nat then
            first <- element data 0 ;;
            setMapCenter (geo_lat first, geo_long first)
          else ret tt)
         (fun error => console_error "Error fetching stations:" error))
      (setLoading false)
|}.

Definition fetchWeather (city : string) : Async OpenWeather.Response := {|
  request :=
    AxiosGet weather_address
      [("q", PStr city); ("appid", PEnv "VITE_OPENWEATHERMAP_API_KEY");
       ("units", PStr "metric"); ("lang", PStr "tr")];
  resume := fun response =>
    try_catch
      (data <- await response ;;
       let t := Math_round (OpenWeather.temp (OpenWeather.main data)) in
       w0 <- element (OpenWeather.weather data) 0 ;;
       setWeatherData {|
         temperature := t;
         description := OpenWeather.description w0;
         icon := OpenWeather.icon w0 |})
      (fun error => console_error "Error fetching weather:" error)
|}.

(* ================================================================== *)
(** ** The event handlers *)

Definition handleSearch (value : string) : M unit := setSearchQuery value.

(** [currentStation?.id === station.id]; on [null] the left side is
    [undefined], which is no string. *)
Definition is_current (current : option RadioStation) (station : RadioStation) : bool :=
  match current with
  | Some c => String.eqb (id c) (id station)
  | None => false
  end.

Definition handlePlayStation (station : RadioStation) : M unit :=
  now <- rendered ;;
  if is_current (currentStation now) station then
    (if isPlaying now then audio_pause else audio_play) ;;
    setIsPlaying (negb (isPlaying now))
  else
    audio_pause ;;
    audio_set_src (url station) ;;
    audio_play ;;
    setCurrentStation station ;;
    setIsPlaying true ;;
    setMapCenter (geo_lat station, geo_long station).

(* ================================================================== *)
(** ** Effect hooks, events and the transition function *)

(** React compares a dependency with [Object.is].  A station object is
    never mutated and the only write to the [currentStation] cell installs
    a station whose [id] differs from the one of the station in the cell
    (see [handlePlayStation_dep]), so the cell holds another object exactly
    when it holds other contents. *)
Definition number_is (a b : number) : bool :=
  (Qnum a =? Qnum b)%Z && (Qden a =? Qden b)%positive.

Definition station_is (a b : RadioStation) : bool :=
  String.eqb (id a) (id b) && String.eqb (name a) (name b) &&
  String.eqb (country a) (country b) && String.eqb (url a) (url b) &&
  String.eqb (favicon a) (favicon b) &&
  number_is (geo_lat a) (geo_lat b) && number_is (geo_long a) (geo_long b) &&
  String.eqb (city a) (city b).

Definition Object_is (a b : option RadioStation) : bool :=
  match a, b with
  | None, None => true
  | Some x, Some y => station_is x y
  | _, _ => false
  end.

(** [useEffect(() => { fetchStations(); }, [])] *)
Definition effect_mount : M unit := start fetchStations.

(** [useEffect(() => { if (currentStation) fetchWeather(currentStation.city); },
    [currentStation])] *)
Definition effect_currentStation : M unit :=
  now <- rendered ;;
  match currentStation now with
  | Some c => start (fetchWeather (city c))
  | None => ret tt
  end.

(** First render: both effects run. *)
Definition mount : M unit := effect_mount ;; effect_currentStation.

(** A later render: an effect runs when one of its dependencies changed. *)
Definition commit (previous : AppState) : M unit :=
  now <- rendered ;;
  if Object_is (currentStation previous) (currentStation now) then ret tt
  else effect_currentStation.

Inductive Event :=
| StationsSettled (response : Settled (list RadioStation))
| WeatherSettled (city : string) (response : Settled OpenWeather.Response)
| Change (value : string)
| Click (station : RadioStation).

(** [WeatherSettled city response]: the request that [fetchWeather city]
    issued has settled. *)
Definition dispatch (ev : Event) : M unit :=
  match ev with
  | StationsSettled response => resume fetchStations response
  | WeatherSettled city response => resume (fetchWeather city) response
  | Change value => handleSearch value
  | Click station => handlePlayStation station
  end.

(** One event, run to completion, then the render it causes. *)
Definition step (ev : Event) (st : AppState) : AppState * list Effect :=
  let r := (dispatch ev ;; commit st) st in
  (state_of r, trace_of r).

Definition mounted : AppState * list Effect :=
  let r := mount initialState in (state_of r, trace_of r).

Inductive reachable : AppState -> Prop :=
| reachable_mount : reachable (fst mounted)
| reachable_step ev st : reachable st -> reachable (fst (step ev st)).

Fixpoint run (evs : list Event) (st : AppState) : AppState * list Effect :=
  match evs with
  | [] => (st, [])
  | ev :: rest =>
      let '(st1, t1) := step ev st in
      let '(st2, t2) := run rest st1 in
      (st2, t1 ++ t2)
  end.

(** What the component returns. *)
Inductive View :=
| Spinner
| Page (center : number * number) (markers : list RadioStation)
       (sidebar : option (RadioStation * option WeatherData)).

Definition render (st : AppState) : View :=
  if loading st then Spinner
  else Page (mapCenter st)
            (filteredStations (stations st) (searchQuery st))
            (match currentStation st with
             | Some c => Some (c, weatherData st)
             | None => None
             end).

(* ================================================================== *)
(** ** Observations on traces *)

Definition is_weather_request (e : Effect) : bool :=
  match e with
  | AxiosGet address _ => String.eqb address weather_address
  | _ => false
  end.

Definition is_request (e : Effect) : bool :=
  match e with
  | AxiosGet _ _ => true
  | _ => false
  end.

Definition weather_requests (t : list Effect) : list Effect :=
  filter is_weather_request t.

Definition current_city (st : AppState) : option string :=
  option_map city (currentStation st).

(* ================================================================== *)
(** ** The playback invariant *)

(** The wording of the specification: if playing is true, a current
    station is set. *)
Definition playing_has_station (st : AppState) : Prop :=
  isPlaying st = true -> exists c, currentStation st = Some c.

(* ================================================================== *)
(** ** Sample data *)

Definition jazz_fm : RadioStation := {|
  id := "1"; name := "Jazz FM"; country := "France";
  url := "https://stream.example/jazz"; favicon := "https://stream.example/jazz.png";
  geo_lat := 4885 # 100; geo_long := 235 # 100; city := "Paris"
|}.

Definition radio_nova : RadioStation := {|
  id := "2"; name := "Radio Nova"; country := "France";
  url := "https://stream.example/nova"; favicon := "";
  geo_lat := 4886 # 100; geo_long := 234 # 100; city := "Paris"
|}.

Definition clear_sky : OpenWeather.Response := {|
  OpenWeather.main := {| OpenWeather.temp := 216 # 10 |};
  OpenWeather.weather :=
    [{| OpenWeather.description := "clear sky"; OpenWeather.icon := "01d" |}]
|}.

(** The session in which the directory answered with the two stations and
    the user started Jazz FM. *)
Definition playing_jazz : AppState :=
  fst (run [StationsSettled (Fulfilled [jazz_fm; radio_nova]); Click jazz_fm]
           (fst mounted)).

(* ================================================================== *)
(** ** The page in detail (the JSX that [App] returns) *)

Inductive ButtonIcon := PauseIcon | PlayArrowIcon.

(** [currentStation?.id === station.id && isPlaying ? <PauseIcon /> :
    <PlayArrowIcon />] *)
Definition button_icon (st : AppState) (station : RadioStation) : ButtonIcon :=
  if is_current (currentStation st) station && isPlaying st
  then PauseIcon else PlayArrowIcon.

(** The weather box of the side panel. *)
Record WeatherBox := {
  box_heading : string;
  box_image : string;
  box_alt : string;
  box_degrees : number;
  box_text : string
}.

(** The side panel when a station is current; [currentStation.favicon &&
    <img ... />] shows the image unless the string is empty. *)
Record StationDetails := {
  details_image : option string;
  details_name : string;
  details_place : string;
  details_weather : option WeatherBox
}.

Definition weather_box (c : RadioStation) (w : WeatherData) : WeatherBox := {|
  box_heading := ("Weather in " ++ city c)%string;
  box_image := ("https://openweathermap.org/img/wn/" ++ icon w ++ "@2x.png")%string;
  box_alt := description w;
  box_degrees := temperature w;
  box_text := description w
|}.

(** [None] stands for the invitation to select a station. *)
Definition side_panel (st : AppState) : option StationDetails :=
  match currentStation st with
  | Some c =>
      Some {|
        details_image :=
          match favicon c with
          | EmptyString => None
          | String _ _ => Some (favicon c)
          end;
        details_name := name c;
        details_place := (city c ++ ", " ++ country c)%string;
        details_weather := option_map (weather_box c) (weatherData st)
      |}
  | None => None
  end.

(* ================================================================== *)
(** ** Sessions: what the page offers and what the network can answer *)

(** The request an event is the answer to. *)
Definition answers (ev : Event) : option Effect :=
  match ev with
  | StationsSettled _ => Some (request fetchStations)
  | WeatherSettled c _ => Some (request (fetchWeather c))
  | Change _ | Click _ => None
  end.

(** The text field and the markers exist on the page only, not beside the
    spinner; a marker's button passes the station of that marker, one of
    [filteredStations]. *)
Definition offered (st : AppState) (ev : Event) : Prop :=
  match ev with
  | Change _ => loading st = false
  | Click s =>
      loading st = false /\
      In s (filteredStations (stations st) (searchQuery st))
  | StationsSettled _ | WeatherSettled _ _ => True
  end.

Definition requests (t : list Effect) : list Effect := filter is_request t.

(** [session st awaited]: the component is in state [st] and the requests
    [awaited] have been issued and not yet settled.  A request settles
    once; the user acts through what is on the page. *)
Inductive session : AppState -> list Effect -> Prop :=
| session_mount : session (fst mounted) (requests (snd mounted))
| session_user ev st awaited :
    session st awaited -> answers ev = None -> offered st ev ->
    session (fst (step ev st)) (awaited ++ requests (snd (step ev st)))
| session_settle ev st before req after :
    session st (before ++ req :: after) -> answers ev = Some req ->
    session (fst (step ev st))
            (before ++ after ++ requests (snd (step ev st))).

(* ================================================================== *)
(** ** Invariants *)

(** The source of the audio element is the stream of the current
    station. *)
Definition audio_source_follows (st : AppState) : Prop :=
  Audio.src (audio st) =
    match currentStation st with
    | Some c => url c
    | None => ""
    end.

Definition default_center : number * number := (20 # 1, 0 # 1).

(** What holds of a session once the directory has answered. *)
Record page_invariant (st : AppState) (awaited : list Effect) : Prop := {
  inv_loaded : loading st = false;
  inv_current : forall c, currentStation st = Some c -> In c (stations st);
  inv_center :
    mapCenter st = default_center \/
    exists s, In s (stations st) /\ mapCenter st = (geo_lat s, geo_long s);
  inv_awaited :
    forall req, In req awaited ->
      exists s, In s (stations st) /\ req = request (fetchWeather (city s));
  inv_weather :
    (awaited <> [] \/ weatherData st <> None) -> currentStation st <> None
}.

Definition session_invariant (st : AppState) (awaited : list Effect) : Prop :=
  (st = fst mounted /\ awaited = [request fetchStations]) \/
  page_invariant st awaited.

(** The snapshot that an answer of the weather service yields; none when
    the answer has no [weather[0]]. *)
Definition snapshot_of (data : OpenWeather.Response) : option WeatherData :=
  match OpenWeather.weather data with
  | w :: _ =>
      Some {| temperature := Math_round (OpenWeather.temp (OpenWeather.main data));
              description := OpenWeather.description w;
              icon := OpenWeather.icon w |}
  | [] => None
  end.

(* ================================================================== *)
(** ** More sample data *)

Definition tokyo_fm : RadioStation := {|
  id := "3"; name := "Tokyo FM"; country := "Japan";
  url := "https://stream.example/tokyo"; favicon := "";
  geo_lat := 3568 # 100; geo_long := 13969 # 100; city := "Tokyo"
|}.

(** A station of Athens whose name is KOSMOS in Greek capitals (kappa,
    omicron, sigma, mu, omicron, sigma), and the query KOS in Greek
    capitals, the first three letters of that name. *)
Definition kosmos : RadioStation := {|
  id := "4"; name := Utf8.encode [0x39A; 0x39F; 0x3A3; 0x39C; 0x39F; 0x3A3]%N;
  country := "Greece";
  url := "https://stream.example/kosmos"; favicon := "";
  geo_lat := 3798 # 100; geo_long := 2373 # 100; city := "Athens"
|}.

Definition kos : string := Utf8.encode [0x39A; 0x39F; 0x3A3]%N.

Definition light_rain : OpenWeather.Response := {|
  OpenWeather.main := {| OpenWeather.temp := 125 # 10 |};
  OpenWeather.weather :=
    [{| OpenWeather.description := "light rain"; OpenWeather.icon := "10n" |}]
|}.

(* ================================================================== *)
(** * Properties *)

(** ** Strings *)

Lemma startsWith_iff s q :
  startsWith s q = true <-> exists t, s = (q ++ t)%string.
Proof.
  revert s; induction q as [|a q IH]; intros s; simpl.
  - split; [exists s; reflexivity | reflexivity].
  - destruct s as [|b s].
    + split; [discriminate | intros [t H]; discriminate].
    + rewrite andb_true_iff, Ascii.eqb_eq, IH. split.
      * intros [-> [t ->]]. now exists t.
      * intros [t H]. injection H as -> ->. split; [reflexivity | now exists t].
Qed.

Lemma includes_iff s q :
  includes s q = true <-> exists pre post, s = (pre ++ q ++ post)%string.
Proof.
  induction s as [|c s IH].
  - simpl. rewrite orb_false_r, startsWith_iff. split.
    + intros [t H]. now exists EmptyString, t.
    + intros [pre [post H]]. destruct pre; [now exists post | discriminate].
  - cbn [includes]. rewrite orb_true_iff, startsWith_iff, IH. split.
    + intros [[t H] | [pre [post H]]].
      * now exists EmptyString, t.
      * exists (String c pre), post. simpl. now rewrite H.
    + intros [[|c' pre] [post H]].
      * left. now exists post.
      * right. simpl in H. injection H as _ H. now exists pre, post.
Qed.

(** On a Basic Latin text [toLowerCase] works byte by byte. *)
Lemma lower_point_basic c :
  (c < 128)%N -> lower_point c = [if between 0x41 0x5A c then (c + 0x20)%N else c].
Proof.
  intros H. unfold lower_point, between.
  destruct ((0x41 <=? c)%N && (c <=? 0x5A)%N) eqn:E; [reflexivity|].
  replace ((0xC0 <=? c)%N) with false by (symmetry; apply N.leb_gt; lia).
  replace ((0xD8 <=? c)%N) with false by (symmetry; apply N.leb_gt; lia).
  replace ((0x391 <=? c)%N) with false by (symmetry; apply N.leb_gt; lia).
  replace ((0x3A3 <=? c)%N) with false by (symmetry; apply N.leb_gt; lia).
  replace ((c =? 0x130)%N) with false by (symmetry; apply N.eqb_neq; lia).
  reflexivity.
Qed.

Lemma lower_byte_basic a :
  (N_of_ascii a < 128)%N ->
  Utf8.encode_point
    (if between 0x41 0x5A (N_of_ascii a) then (N_of_ascii a + 0x20)%N
     else N_of_ascii a) =
  String (lower_byte a) "".
Proof.
  intros H. unfold lower_byte, Utf8.encode_point.
  destruct (between 0x41 0x5A (N_of_ascii a)) eqn:E.
  - unfold between in E. apply andb_true_iff in E. destruct E as [E1 E2].
    apply N.leb_le in E1, E2.
    replace ((N_of_ascii a + 0x20 <? 128)%N) with true
      by (symmetry; apply N.ltb_lt; lia).
    reflexivity.
  - replace ((N_of_ascii a <? 128)%N) with true by (symmetry; now apply N.ltb_lt).
    now rewrite ascii_N_embedding.
Qed.

Lemma lower_points_basic before s :
  basic_latin s = true ->
  Utf8.encode (lower_points before (Utf8.decode s)) = lower_bytes s.
Proof.
  revert before. induction s as [|a r IH]; intros before H; [reflexivity|].
  cbn [basic_latin] in H. apply andb_true_iff in H. destruct H as [Ha Hr].
  cbn [Utf8.decode]. rewrite Ha. cbn [lower_points].
  apply N.ltb_lt in Ha.
  replace ((N_of_ascii a =? 0x3A3)%N) with false
    by (symmetry; apply N.eqb_neq; lia).
  cbn [andb]. rewrite (lower_point_basic _ Ha).
  cbn [app Utf8.encode]. rewrite (lower_byte_basic _ Ha), (IH _ Hr). reflexivity.
Qed.

Lemma toLowerCase_basic_latin s :
  basic_latin s = true -> toLowerCase s = lower_bytes s.
Proof. apply lower_points_basic. Qed.

Lemma lower_bytes_app a b :
  lower_bytes (a ++ b) = (lower_bytes a ++ lower_bytes b)%string.
Proof.
  induction a as [|c a IH]; simpl; [reflexivity | now rewrite IH].
Qed.

(** [lower_bytes] works character by character: a cut of the result is the
    image of a cut of the argument. *)
Lemma lower_bytes_cut x a b :
  lower_bytes x = (a ++ b)%string ->
  exists x1 x2, x = (x1 ++ x2)%string /\ lower_bytes x1 = a /\ lower_bytes x2 = b.
Proof.
  revert x; induction a as [|c a IH]; intros x H; simpl in H.
  - now exists EmptyString, x.
  - destruct x as [|d x]; [discriminate|].
    simpl in H. injection H as Hc H.
    destruct (IH _ H) as [x1 [x2 [-> [<- <-]]]].
    exists (String d x1), x2. simpl. now rewrite Hc.
Qed.

Lemma capital_bounds a :
  between 0x41 0x5A (N_of_ascii a) = true -> (65 <= N_of_ascii a <= 90)%N.
Proof. unfold between. rewrite andb_true_iff, !N.leb_le. tauto. Qed.

Lemma N_of_ascii_inj a b : N_of_ascii a = N_of_ascii b -> a = b.
Proof.
  intros H. rewrite <- (ascii_N_embedding a), <- (ascii_N_embedding b).
  now rewrite H.
Qed.

(** The alphabet of the specification and the range of the code agree. *)
Lemma capital_pair a :
  between 0x41 0x5A (N_of_ascii a) = true ->
  In (a, ascii_of_N (N_of_ascii a + 0x20)) letter_pairs.
Proof.
  destruct a as [[] [] [] [] [] [] [] []]; intros H; vm_compute in H;
    try discriminate H; clear H; vm_compute;
    repeat first [left; reflexivity | right].
Qed.

Lemma pair_capital a b :
  In (a, b) letter_pairs ->
  between 0x41 0x5A (N_of_ascii a) = true /\
  between 0x41 0x5A (N_of_ascii b) = false /\
  b = ascii_of_N (N_of_ascii a + 0x20).
Proof.
  intros H. vm_compute in H.
  repeat (destruct H as [H | H];
          [injection H as <- <-; repeat split; reflexivity|]).
  contradiction.
Qed.

(** Lower-casing both characters decides whether they are the same
    letter. *)
Lemma same_letter_iff a b : same_letter a b <-> lower_byte a = lower_byte b.
Proof.
  unfold same_letter. split.
  - intros [-> | [H | H]]; [reflexivity | |];
      apply pair_capital in H; destruct H as [U [L E]];
      unfold lower_byte; rewrite U, L; congruence.
  - unfold lower_byte. intros H.
    destruct (between 0x41 0x5A (N_of_ascii a)) eqn:Ua,
             (between 0x41 0x5A (N_of_ascii b)) eqn:Ub.
    + left. apply N_of_ascii_inj.
      apply (f_equal N_of_ascii) in H.
      apply capital_bounds in Ua, Ub.
      rewrite !N_ascii_embedding in H by lia. lia.
    + right; left. rewrite <- H. now apply capital_pair.
    + right; right. rewrite H. now apply capital_pair.
    + now left.
Qed.

Lemma eq_ignoring_case_iff s t :
  eq_ignoring_case s t <-> lower_bytes s = lower_bytes t.
Proof.
  split.
  - induction 1 as [|a b s t Hab _ IH]; simpl; [reflexivity|].
    apply same_letter_iff in Hab. now rewrite Hab, IH.
  - revert t; induction s as [|a s IH]; intros [|b t] H; simpl in H;
      try discriminate.
    + constructor.
    + injection H as Hab H. constructor.
      * now apply same_letter_iff.
      * now apply IH.
Qed.

Lemma same_letter_basic a b :
  same_letter a b -> (N_of_ascii a <? 128)%N = true -> (N_of_ascii b <? 128)%N = true.
Proof.
  intros [-> | [H | H]] Ha; [exact Ha | |];
    apply pair_capital in H; destruct H as [U [_ E]];
    apply capital_bounds in U; apply N.ltb_lt.
  - subst b. rewrite N_ascii_embedding by lia. lia.
  - lia.
Qed.

Lemma eq_ignoring_case_basic s t :
  eq_ignoring_case s t -> basic_latin s = true -> basic_latin t = true.
Proof.
  induction 1 as [|a b s t Hab _ IH]; [reflexivity|].
  cbn [basic_latin]. rewrite !andb_true_iff. intros [Ha Hs].
  split; [exact (same_letter_basic _ _ Hab Ha) | now apply IH].
Qed.

Lemma includes_lower_bytes_iff x q :
  includes (lower_bytes x) (lower_bytes q) = true <-> ci_substring q x.
Proof.
  rewrite includes_iff. unfold ci_substring. split.
  - intros [pre [post H]].
    destruct (lower_bytes_cut _ _ _ H) as [x1 [r [-> [_ Hr]]]].
    destruct (lower_bytes_cut _ _ _ Hr) as [x2 [x3 [-> [H2 _]]]].
    exists x1, x2, x3. split; [reflexivity|]. now apply eq_ignoring_case_iff.
  - intros [pre [mid [post [-> H]]]]. apply eq_ignoring_case_iff in H.
    exists (lower_bytes pre), (lower_bytes post).
    now rewrite !lower_bytes_app, H.
Qed.

(** On Basic Latin texts the test of the code is the case-insensitive
    substring test of the specification. *)
Lemma includes_lower_iff x q :
  basic_latin x = true -> basic_latin q = true ->
  (includes (toLowerCase x) (toLowerCase q) = true <-> ci_substring q x).
Proof.
  intros Hx Hq.
  rewrite (toLowerCase_basic_latin _ Hx), (toLowerCase_basic_latin _ Hq).
  apply includes_lower_bytes_iff.
Qed.

Example ci_substring_jazz : ci_substring "jAZz" "Smooth Jazz FM".
Proof.
  exists "Smooth ", "Jazz", " FM". split; [reflexivity|].
  apply eq_ignoring_case_iff. reflexivity.
Qed.

(** What [toLowerCase] does beyond Basic Latin: a letter of Latin-1, the
    capital I with dot (two code points), and the capital sigma, final in
    KOSMOS and in KOS but not inside KOSMOS. *)
Example toLowerCase_beyond :
  toLowerCase (Utf8.encode [0xC9; 0x4E]%N) = Utf8.encode [0xE9; 0x6E]%N /\
  toLowerCase (Utf8.encode [0x130]%N) = Utf8.encode [0x69; 0x307]%N /\
  toLowerCase (Utf8.encode [0x39A; 0x39F; 0x3A3; 0x39C; 0x39F; 0x3A3]%N) =
    Utf8.encode [0x3BA; 0x3BF; 0x3C3; 0x3BC; 0x3BF; 0x3C2]%N /\
  toLowerCase (Utf8.encode [0x39A; 0x39F; 0x3A3]%N) =
    Utf8.encode [0x3BA; 0x3BF; 0x3C2]%N /\
  toLowerCase (Utf8.encode [0x3A3]%N) = Utf8.encode [0x3C3]%N.
Proof. repeat split; reflexivity. Qed.

Lemma includes_empty s : includes s "" = true.
Proof. destruct s; reflexivity. Qed.

(** ** Search filter *)

Lemma station_matches_lowered Q s :
  station_matches Q s = true <-> lowered_match Q s.
Proof.
  unfold station_matches, lowered_match, lowered_substring.
  rewrite !orb_true_iff, !includes_iff. tauto.
Qed.

Lemma station_matches_iff Q s :
  basic_latin Q = true -> basic_latin_station s = true ->
  (station_matches Q s = true <-> query_matches Q s).
Proof.
  unfold basic_latin_station. rewrite !andb_true_iff. intros HQ [[Hn Hc] Hy].
  unfold station_matches, query_matches.
  rewrite !orb_true_iff.
  rewrite (includes_lower_iff _ _ Hn HQ), (includes_lower_iff _ _ Hc HQ),
          (includes_lower_iff _ _ Hy HQ).
  tauto.
Qed.

Lemma filter_exactly_the_members (P : RadioStation -> Prop) f S :
  (forall s, In s S -> (f s = true <-> P s)) ->
  exactly_the_members P S (filter f S).
Proof.
  induction S as [|s S IH]; intros Hf; simpl.
  - constructor.
  - assert (IH' : exactly_the_members P S (filter f S)).
    { apply IH. intros x Hx. apply Hf. now right. }
    destruct (f s) eqn:E.
    + apply members_keep; [apply Hf; [now left | exact E] | exact IH'].
    + apply members_skip; [|exact IH'].
      intros HP. apply Hf in HP; [congruence | now left].
Qed.

(** The relation of the specification determines the view. *)
Lemma exactly_the_members_unique P S R1 R2 :
  exactly_the_members P S R1 -> exactly_the_members P S R2 -> R1 = R2.
Proof.
  intros H1; revert R2; induction H1; intros R2 H2; inversion H2; subst;
    try reflexivity; try contradiction.
  - f_equal. now apply IHexactly_the_members.
  - now apply IHexactly_the_members.
Qed.

Lemma exactly_the_members_In P S R :
  exactly_the_members P S R -> forall s, In s R <-> In s S /\ P s.
Proof.
  induction 1; intros x; simpl.
  - tauto.
  - rewrite IHexactly_the_members. split.
    + intros [<- | [? ?]]; auto.
    + intros [[<- | ?] ?]; auto.
  - rewrite IHexactly_the_members. split.
    + intros [? ?]; auto.
    + intros [[<- | ?] ?]; [contradiction | auto].
Qed.

Lemma filteredStations_empty_query S : filteredStations S "" = S.
Proof.
  unfold filteredStations. induction S as [|s S IH]; simpl; [reflexivity|].
  unfold station_matches at 1.
  change (toLowerCase "") with "". rewrite includes_empty. simpl.
  now rewrite IH.
Qed.

(** C1, as the code has it.  For every station collection [S] and query
    [Q], the filtered view holds exactly the members of [S] for which the
    lower-cased [Q] occurs in the lower-cased name, country or city, in the
    order of [S].  When [Q] and these fields are Basic Latin texts, these
    are the members for which [Q] is a case-insensitive substring of the
    name, the country or the city.  The empty query returns [S] itself. *)
Theorem filteredStations_exact (S : list RadioStation) (Q : string) :
  exactly_the_members (lowered_match Q) S (filteredStations S Q) /\
  (basic_latin Q = true -> forallb basic_latin_station S = true ->
   exactly_the_members (query_matches Q) S (filteredStations S Q)) /\
  filteredStations S "" = S.
Proof.
  split; [|split].
  - apply filter_exactly_the_members. intros s _. apply station_matches_lowered.
  - intros HQ HS. apply filter_exactly_the_members. intros s Hs.
    apply station_matches_iff; [exact HQ|].
    rewrite forallb_forall in HS. now apply HS.
  - apply filteredStations_empty_query.
Qed.

Lemma filteredStations_exact_witness :
  basic_latin "jAZz" = true /\
  forallb basic_latin_station [jazz_fm; tokyo_fm; radio_nova] = true /\
  exactly_the_members (query_matches "jAZz") [jazz_fm; tokyo_fm; radio_nova]
    (filteredStations [jazz_fm; tokyo_fm; radio_nova] "jAZz").
Proof.
  split; [reflexivity|]. split; [reflexivity|].
  exact (proj1 (proj2 (filteredStations_exact
                         [jazz_fm; tokyo_fm; radio_nova] "jAZz"))
           eq_refl eq_refl).
Defined.

(** C1, as the specification words it, fails.  The query KOS in Greek
    capitals is, letter for letter, the beginning of the name KOSMOS, yet
    the view of [kosmos] for this query is empty: the sigma that ends the
    query is lower-cased to a final sigma, the same sigma inside the name
    is not. *)
Lemma filteredStations_final_sigma :
  name kosmos = (kos ++ Utf8.encode [0x39C; 0x39F; 0x3A3]%N)%string /\
  query_matches kos kosmos /\
  filteredStations [kosmos] kos = [] /\
  ~ exactly_the_members (query_matches kos) [kosmos]
      (filteredStations [kosmos] kos).
Proof.
  assert (M : query_matches kos kosmos).
  { left. exists "", kos, (Utf8.encode [0x39C; 0x39F; 0x3A3]%N).
    split; [reflexivity|]. apply eq_ignoring_case_iff. reflexivity. }
  assert (E : filteredStations [kosmos] kos = []) by reflexivity.
  split; [reflexivity|]. split; [exact M|]. split; [exact E|].
  rewrite E. intros H. inversion H; subst. contradiction.
Qed.

Example scenario_search :
  filteredStations [jazz_fm] "jazz" = [jazz_fm] /\
  filteredStations [jazz_fm] "tokyo" = [] /\
  filteredStations [jazz_fm; radio_nova] "NOVA" = [radio_nova] /\
  filteredStations [jazz_fm; radio_nova] "fra" = [jazz_fm; radio_nova].
Proof. repeat split; reflexivity. Qed.

(** ** The click handler *)

Lemma is_current_false_iff current s :
  is_current current s = false <->
  (forall c, current = Some c -> id c <> id s).
Proof.
  unfold is_current. destruct current as [c|].
  - rewrite String.eqb_neq. split.
    + intros H c' E. injection E as <-. exact H.
    + intros H. now apply H.
  - split; [discriminate | reflexivity].
Qed.

Lemma is_current_true_iff current s :
  is_current current s = true <->
  (exists c, current = Some c /\ id c = id s).
Proof.
  unfold is_current. destruct current as [c|].
  - rewrite String.eqb_eq. split.
    + intros H. now exists c.
    + intros [c' [E H]]. injection E as <-. exact H.
  - split; [discriminate | intros [c [E _]]; discriminate].
Qed.

(** C2.  When [s] is not the current station (another id, or no current
    station), [handlePlayStation s] pauses the audio element, points it at
    the stream of [s], starts it, makes [s] the current station, sets the
    playing flag and moves the map center to the coordinates of [s]. *)
Theorem handlePlayStation_other_station (st : AppState) (s : RadioStation) :
  (forall c, currentStation st = Some c -> id c <> id s) ->
  let r := handlePlayStation s st in
  outcome_of r = Normal tt /\
  trace_of r = [AudioPause; AudioSetSrc (url s); AudioPlay] /\
  audio (state_of r) = {| Audio.src := url s; Audio.paused := false |} /\
  currentStation (state_of r) = Some s /\
  isPlaying (state_of r) = true /\
  mapCenter (state_of r) = (geo_lat s, geo_long s) /\
  stations (state_of r) = stations st /\
  searchQuery (state_of r) = searchQuery st /\
  loading (state_of r) = loading st /\
  weatherData (state_of r) = weatherData st.
Proof.
  intros H. apply is_current_false_iff in H.
  unfold handlePlayStation, bind, rendered. rewrite H.
  cbv. repeat split; reflexivity.
Qed.

Lemma handlePlayStation_other_station_witness :
  (forall c, currentStation playing_jazz = Some c -> id c <> id radio_nova) /\
  let r := handlePlayStation radio_nova playing_jazz in
  trace_of r = [AudioPause; AudioSetSrc "https://stream.example/nova"; AudioPlay] /\
  currentStation (state_of r) = Some radio_nova /\
  isPlaying (state_of r) = true /\
  mapCenter (state_of r) = (4886 # 100, 234 # 100).
Proof.
  assert (H : forall c, currentStation playing_jazz = Some c -> id c <> id radio_nova).
  { intros c E. vm_compute in E. injection E as <-. simpl. discriminate. }
  split; [exact H|].
  pose proof (handlePlayStation_other_station playing_jazz radio_nova H) as P.
  simpl in P. decompose [and] P. repeat split; assumption.
Defined.

(** ** Dependency comparison *)

Lemma number_is_refl a : number_is a a = true.
Proof. unfold number_is. now rewrite Z.eqb_refl, Pos.eqb_refl. Qed.

Lemma station_is_refl s : station_is s s = true.
Proof.
  unfold station_is. now rewrite !String.eqb_refl, !number_is_refl.
Qed.

Lemma Object_is_refl o : Object_is o o = true.
Proof. destruct o; simpl; [apply station_is_refl | reflexivity]. Qed.

Lemma number_is_eq a b : number_is a b = true -> a = b.
Proof.
  unfold number_is. rewrite andb_true_iff, Z.eqb_eq, Pos.eqb_eq.
  destruct a, b; simpl. intros [-> ->]. reflexivity.
Qed.

Lemma station_is_eq a b : station_is a b = true <-> a = b.
Proof.
  split; [|intros ->; apply station_is_refl].
  unfold station_is. rewrite !andb_true_iff, !String.eqb_eq.
  destruct a, b; simpl.
  intros [[[[[[[-> ->] ->] ->] ->] Hlat] Hlong] ->].
  apply number_is_eq in Hlat, Hlong. now subst.
Qed.

Lemma Object_is_eq a b : Object_is a b = true <-> a = b.
Proof.
  destruct a as [x|], b as [y|]; simpl.
  - rewrite station_is_eq. split; [now intros -> | now intros [= ->]].
  - split; discriminate.
  - split; discriminate.
  - tauto.
Qed.

(** The write of [handlePlayStation] to the [currentStation] cell always
    changes the cell: the station it installs has another id. *)
Lemma handlePlayStation_dep current s :
  is_current current s = false -> Object_is current (Some s) = false.
Proof.
  intros H. destruct (Object_is current (Some s)) eqn:E; [|reflexivity].
  apply Object_is_eq in E. subst current. simpl in H.
  now rewrite String.eqb_refl in H.
Qed.

(** ** One click, with the render that follows *)

Lemma handlePlayStation_current_eq st s :
  is_current (currentStation st) s = true ->
  handlePlayStation s st =
  (Normal tt,
   state_of ((on_audio (if isPlaying st then Audio.pause else Audio.play) ;;
              setIsPlaying (negb (isPlaying st))) st),
   [if isPlaying st then AudioPause else AudioPlay]).
Proof.
  intros H. cbv [handlePlayStation bind rendered]. rewrite H.
  destruct (isPlaying st); reflexivity.
Qed.

Lemma handlePlayStation_other_eq st s :
  is_current (currentStation st) s = false ->
  handlePlayStation s st =
  (Normal tt,
   state_of ((on_audio (fun a => Audio.play (Audio.set_src (url s) (Audio.pause a))) ;;
              setCurrentStation s ;; setIsPlaying true ;;
              setMapCenter (geo_lat s, geo_long s)) st),
   [AudioPause; AudioSetSrc (url s); AudioPlay]).
Proof.
  intros H. cbv [handlePlayStation bind rendered]. rewrite H. reflexivity.
Qed.

Lemma step_Click_current st s :
  is_current (currentStation st) s = true ->
  step (Click s) st =
  (state_of (handlePlayStation s st),
   [if isPlaying st then AudioPause else AudioPlay]).
Proof.
  intros H. unfold step. cbv [bind]. cbn [dispatch].
  rewrite (handlePlayStation_current_eq _ _ H).
  cbv [commit bind rendered]. cbn. rewrite Object_is_refl. cbn.
  destruct (isPlaying st); reflexivity.
Qed.

Lemma step_Click_other st s :
  is_current (currentStation st) s = false ->
  step (Click s) st =
  (state_of (handlePlayStation s st),
   [AudioPause; AudioSetSrc (url s); AudioPlay; request (fetchWeather (city s))]).
Proof.
  intros H. unfold step. cbv [bind]. cbn [dispatch].
  rewrite (handlePlayStation_other_eq _ _ H).
  cbv [commit bind rendered]. cbn.
  rewrite (handlePlayStation_dep _ _ H). reflexivity.
Qed.

(** A handler that leaves the [currentStation] cell alone causes a render
    in which no effect runs. *)
Lemma step_same_dep ev st :
  currentStation (state_of (dispatch ev st)) = currentStation st ->
  step ev st = (state_of (dispatch ev st), trace_of (dispatch ev st)).
Proof.
  unfold step. cbv [bind].
  destruct (dispatch ev st) as [[o st1] t1]. cbn [state_of trace_of fst snd].
  intros H. destruct o; [|reflexivity].
  cbv [commit bind rendered]. rewrite H, Object_is_refl. cbn.
  now rewrite app_nil_r.
Qed.

Lemma step_Change v st :
  step (Change v) st = (state_of (setSearchQuery v st), []).
Proof. now rewrite step_same_dep. Qed.

Lemma step_Stations_rejected reason st :
  step (StationsSettled (Rejected reason)) st =
  (state_of (setLoading false st),
   [ConsoleError "Error fetching stations:" reason]).
Proof. now rewrite step_same_dep. Qed.

Lemma step_Stations_empty st :
  step (StationsSettled (Fulfilled [])) st =
  (state_of ((setStations [] ;; setLoading false) st), []).
Proof. now rewrite step_same_dep. Qed.

Lemma step_Stations_first first rest st :
  step (StationsSettled (Fulfilled (first :: rest))) st =
  (state_of ((setStations (first :: rest) ;;
              setMapCenter (geo_lat first, geo_long first) ;;
              setLoading false) st), []).
Proof. now rewrite step_same_dep. Qed.

Lemma step_Weather_rejected c reason st :
  step (WeatherSettled c (Rejected reason)) st =
  (st, [ConsoleError "Error fetching weather:" reason]).
Proof. now rewrite step_same_dep. Qed.

(** An answer without [weather[0]] ends in the [catch] block as well. *)
Lemma step_Weather_no_condition c m st :
  step (WeatherSettled c
          (Fulfilled {| OpenWeather.main := m; OpenWeather.weather := [] |})) st =
  (st, [ConsoleError "Error fetching weather:"
          (TypeError "Cannot read properties of undefined")]).
Proof. now rewrite step_same_dep. Qed.

Lemma step_Weather_fulfilled c t w rest st :
  step (WeatherSettled c
          (Fulfilled {| OpenWeather.main := {| OpenWeather.temp := t |};
                        OpenWeather.weather := w :: rest |})) st =
  (state_of (setWeatherData
               {| temperature := Math_round t;
                  description := OpenWeather.description w;
                  icon := OpenWeather.icon w |} st), []).
Proof. now rewrite step_same_dep. Qed.

(** C3.  When the station clicked is the current one, a click flips the
    playing flag, pausing the audio element if it was set and resuming it
    otherwise; the current station and the stream stay; a second click
    brings the flag back. *)
Theorem handlePlayStation_current_station (st : AppState) (c s : RadioStation) :
  currentStation st = Some c -> id c = id s ->
  let once := step (Click s) st in
  let twice := step (Click s) (fst once) in
  trace_of (handlePlayStation s st) = snd once /\
  snd once = [if isPlaying st then AudioPause else AudioPlay] /\
  isPlaying (fst once) = negb (isPlaying st) /\
  Audio.paused (audio (fst once)) = isPlaying st /\
  Audio.src (audio (fst once)) = Audio.src (audio st) /\
  currentStation (fst once) = Some c /\
  isPlaying (fst twice) = isPlaying st /\
  currentStation (fst twice) = Some c /\
  Audio.src (audio (fst twice)) = Audio.src (audio st).
Proof.
  intros Hc Hid.
  assert (H : is_current (currentStation st) s = true).
  { apply is_current_true_iff. now exists c. }
  cbv zeta. rewrite (step_Click_current _ _ H).
  rewrite (handlePlayStation_current_eq _ _ H). cbn [fst snd state_of trace_of].
  assert (H1 : is_current
            (currentStation
               (state_of ((on_audio (if isPlaying st then Audio.pause else Audio.play) ;;
                           setIsPlaying (negb (isPlaying st))) st))) s = true).
  { cbn. exact H. }
  rewrite (step_Click_current _ _ H1).
  rewrite (handlePlayStation_current_eq _ _ H1).
  cbn. rewrite Hc. destruct (isPlaying st); cbn; repeat split; reflexivity.
Qed.

Lemma handlePlayStation_current_station_witness :
  currentStation playing_jazz = Some jazz_fm /\ id jazz_fm = id jazz_fm /\
  isPlaying playing_jazz = true /\
  snd (step (Click jazz_fm) playing_jazz) = [AudioPause] /\
  isPlaying (fst (step (Click jazz_fm) playing_jazz)) = false /\
  isPlaying (fst (step (Click jazz_fm) (fst (step (Click jazz_fm) playing_jazz)))) = true.
Proof.
  assert (Hc : currentStation playing_jazz = Some jazz_fm) by reflexivity.
  assert (Hid : id jazz_fm = id jazz_fm) by reflexivity.
  pose proof (handlePlayStation_current_station playing_jazz jazz_fm jazz_fm Hc Hid) as P.
  cbv zeta in P. decompose [and] P.
  repeat split; first [assumption | reflexivity].
Defined.

(** ** Reachable states *)

Lemma reachable_run evs st : reachable st -> reachable (fst (run evs st)).
Proof.
  revert st; induction evs as [|ev evs IH]; intros st H; cbn [run].
  - exact H.
  - destruct (step ev st) as [st1 t1] eqn:E1.
    specialize (IH st1). destruct (run evs st1) as [st2 t2]. cbn [fst] in *.
    apply IH. replace st1 with (fst (step ev st)) by now rewrite E1.
    now apply reachable_step.
Qed.

Lemma reachable_playing_jazz : reachable playing_jazz.
Proof. apply reachable_run, reachable_mount. Qed.

(** ** Weather requests *)

Lemma currentStation_after_other st s :
  is_current (currentStation st) s = false ->
  currentStation (state_of (handlePlayStation s st)) = Some s /\
  Some s <> currentStation st.
Proof.
  intros H. rewrite (handlePlayStation_other_eq _ _ H). split; [reflexivity|].
  intros E. rewrite <- E in H. simpl in H. now rewrite String.eqb_refl in H.
Qed.

Lemma currentStation_after_current st s :
  is_current (currentStation st) s = true ->
  currentStation (state_of (handlePlayStation s st)) = currentStation st.
Proof.
  intros H. rewrite (handlePlayStation_current_eq _ _ H).
  destruct (isPlaying st); reflexivity.
Qed.

(** What one event does to the [currentStation] cell and which weather
    requests it issues. *)
Lemma step_weather ev st :
  weather_requests (snd (step ev st)) =
    match ev with
    | Click s =>
        if is_current (currentStation st) s then []
        else [request (fetchWeather (city s))]
    | _ => []
    end /\
  currentStation (fst (step ev st)) =
    match ev with
    | Click s =>
        if is_current (currentStation st) s then currentStation st else Some s
    | _ => currentStation st
    end.
Proof.
  destruct ev as [[[|first rest]|reason] | c [[[t] [|w rest]]|reason] | v | s].
  - now rewrite step_Stations_empty.
  - now rewrite step_Stations_first.
  - now rewrite step_Stations_rejected.
  - now rewrite step_Weather_no_condition.
  - now rewrite step_Weather_fulfilled.
  - now rewrite step_Weather_rejected.
  - now rewrite step_Change.
  - destruct (is_current (currentStation st) s) eqn:H.
    + rewrite (step_Click_current _ _ H). cbn [fst snd]. split.
      * destruct (isPlaying st); reflexivity.
      * now apply currentStation_after_current.
    + rewrite (step_Click_other _ _ H). cbn [fst snd]. split.
      * reflexivity.
      * now apply currentStation_after_other.
Qed.

(** C4, as the code has it.  A weather request is issued exactly when the
    current station changes: a click on a station that is not the current
    one (by id; any station when none is current) issues one request, for
    the city of the new station, whether or not that city is the city of
    the station before; a click on the current station, and every other
    event, issues none and leaves the current station as it is.  The first
    render issues none. *)
Theorem weather_request_iff_station_changes (ev : Event) (st : AppState) :
  let r := step ev st in
  (weather_requests (snd r) <> [] <-> currentStation (fst r) <> currentStation st) /\
  weather_requests (snd r) =
    match ev with
    | Click s =>
        if is_current (currentStation st) s then []
        else [request (fetchWeather (city s))]
    | _ => []
    end /\
  currentStation (fst r) =
    match ev with
    | Click s =>
        if is_current (currentStation st) s then currentStation st else Some s
    | _ => currentStation st
    end /\
  weather_requests (snd mounted) = [].
Proof.
  cbv zeta. destruct (step_weather ev st) as [Hw Hc].
  split; [|split; [exact Hw | split; [exact Hc | reflexivity]]].
  rewrite Hw, Hc.
  destruct ev as [r | c r | v | s]; try (split; intros H; now elim H).
  destruct (is_current (currentStation st) s) eqn:H.
  - split; intros H'; now elim H'.
  - split; [|discriminate]. intros _.
    now apply currentStation_after_other.
Qed.

(** C4, as the specification words it, fails: with Jazz FM (Paris) playing,
    a click on Radio Nova (Paris) issues a weather request although the
    city of the current station is the same before and after. *)
Lemma weather_request_same_city :
  let r := step (Click radio_nova) playing_jazz in
  reachable playing_jazz /\
  current_city playing_jazz = Some "Paris" /\
  current_city (fst r) = Some "Paris" /\
  weather_requests (snd r) = [request (fetchWeather "Paris")] /\
  ~ (weather_requests (snd r) <> [] <->
     current_city (fst r) <> current_city playing_jazz).
Proof.
  cbv zeta. split; [|split; [|split; [|split]]].
  - exact reachable_playing_jazz.
  - reflexivity.
  - reflexivity.
  - reflexivity.
  - intros [H _]. apply H; [discriminate | reflexivity].
Qed.

(** ** The station loader *)

Lemma step_never_asks_directory ev st :
  ~ In (request fetchStations) (snd (step ev st)).
Proof.
  destruct ev as [[[|first rest]|reason] | c [[[t] [|w rest]]|reason] | v | s].
  - rewrite step_Stations_empty. simpl. tauto.
  - rewrite step_Stations_first. simpl. tauto.
  - rewrite step_Stations_rejected. simpl. intros [H|[]]. discriminate.
  - rewrite step_Weather_no_condition. simpl. intros [H|[]]. discriminate.
  - rewrite step_Weather_fulfilled. simpl. tauto.
  - rewrite step_Weather_rejected. simpl. intros [H|[]]. discriminate.
  - rewrite step_Change. simpl. tauto.
  - destruct (is_current (currentStation st) s) eqn:H.
    + rewrite (step_Click_current _ _ H). cbn [snd].
      destruct (isPlaying st); simpl; intros [H'|[]]; discriminate.
    + rewrite (step_Click_other _ _ H). cbn [snd]. simpl.
      intros [H'|[H'|[H'|[H'|[]]]]]; discriminate.
Qed.

(** C5.  The first render shows the spinner and asks the directory once.
    When that request is rejected, the error is logged, the station
    collection is still empty, the loading flag is cleared and the page is
    rendered with no marker; nothing is requested again, then or on any
    later event.  In any state a rejected load writes the loading flag
    only. *)
Theorem fetchStations_rejected (reason : JsError) (st : AppState) :
  let r := step (StationsSettled (Rejected reason)) (fst mounted) in
  snd mounted = [request fetchStations] /\
  render (fst mounted) = Spinner /\
  snd r = [ConsoleError "Error fetching stations:" reason] /\
  stations (fst r) = [] /\
  loading (fst r) = false /\
  render (fst r) = Page (20 # 1, 0 # 1) [] None /\
  filter is_request (snd r) = [] /\
  step (StationsSettled (Rejected reason)) st =
    (state_of (setLoading false st),
     [ConsoleError "Error fetching stations:" reason]) /\
  outcome_of (resume fetchStations (Rejected reason) st) = Normal tt /\
  (forall ev st', ~ In (request fetchStations) (snd (step ev st'))).
Proof.
  cbv zeta. rewrite !step_Stations_rejected.
  repeat split; try reflexivity.
  intros ev st'. apply step_never_asks_directory.
Qed.

(** C7.  When the request of the first render is fulfilled with a list
    that is not empty, the response becomes the station collection, the
    map center is the position of its first station and the page is
    rendered; with the empty list the map center keeps the value the state
    cell was created with.  The same holds from any state. *)
Theorem fetchStations_fulfilled (first : RadioStation) (rest : list RadioStation)
    (st : AppState) :
  let r := step (StationsSettled (Fulfilled (first :: rest))) (fst mounted) in
  let r0 := step (StationsSettled (Fulfilled [])) (fst mounted) in
  mapCenter (fst r) = (geo_lat first, geo_long first) /\
  stations (fst r) = first :: rest /\
  loading (fst r) = false /\
  snd r = [] /\
  render (fst r) = Page (geo_lat first, geo_long first) (first :: rest) None /\
  mapCenter (fst r0) = mapCenter initialState /\
  stations (fst r0) = [] /\
  loading (fst r0) = false /\
  mapCenter (fst (step (StationsSettled (Fulfilled (first :: rest))) st)) =
    (geo_lat first, geo_long first) /\
  mapCenter (fst (step (StationsSettled (Fulfilled [])) st)) = mapCenter st.
Proof.
  cbv zeta. rewrite !step_Stations_first, !step_Stations_empty.
  repeat split; try reflexivity.
  unfold render. cbn [fst state_of]. cbn -[filteredStations].
  now rewrite filteredStations_empty_query.
Qed.

(** C10.  The map center is created as (20, 0) and is still (20, 0) after
    a load that was rejected or that returned no station; in any state such
    a load leaves the map center as it is. *)
Theorem mapCenter_default (reason : JsError) (st : AppState) :
  mapCenter initialState = (20 # 1, 0 # 1) /\
  mapCenter (fst mounted) = (20 # 1, 0 # 1) /\
  mapCenter (fst (step (StationsSettled (Rejected reason)) (fst mounted))) =
    (20 # 1, 0 # 1) /\
  mapCenter (fst (step (StationsSettled (Fulfilled [])) (fst mounted))) =
    (20 # 1, 0 # 1) /\
  mapCenter (fst (step (StationsSettled (Rejected reason)) st)) = mapCenter st /\
  mapCenter (fst (step (StationsSettled (Fulfilled [])) st)) = mapCenter st.
Proof.
  rewrite !step_Stations_rejected, !step_Stations_empty.
  repeat split; reflexivity.
Qed.

Example scenario_load :
  let r := step (StationsSettled (Fulfilled [jazz_fm])) (fst mounted) in
  mapCenter (fst r) = (4885 # 100, 235 # 100) /\
  render (fst r) = Page (4885 # 100, 235 # 100) [jazz_fm] None.
Proof. split; reflexivity. Qed.

(** ** The weather loader *)

Lemma Math_round_bounds t :
  exists n : Z, Math_round t = inject_Z n /\
    (inject_Z n - (1 # 2) <= t)%Q /\ (t < inject_Z n + (1 # 2))%Q.
Proof.
  exists (Qfloor (t + (1 # 2))). split; [reflexivity|].
  pose proof (Qfloor_le (t + (1 # 2))) as H1.
  pose proof (Qlt_floor (t + (1 # 2))) as H2.
  rewrite inject_Z_plus in H2.
  change (inject_Z 1) with 1%Q in H2.
  split; lra.
Qed.

(** No integer is closer to [t] than [Math_round t]. *)
Lemma Math_round_nearest t (m : Z) :
  (Qabs (t - Math_round t) <= Qabs (t - inject_Z m))%Q.
Proof.
  destruct (Math_round_bounds t) as [n [-> [H1 H2]]].
  assert (Hm : (inject_Z m + 1 <= inject_Z n \/ inject_Z m == inject_Z n \/
                inject_Z n + 1 <= inject_Z m)%Q).
  { destruct (Z.lt_trichotomy m n) as [H | [H | H]].
    - left. change 1%Q with (inject_Z 1). rewrite <- inject_Z_plus.
      rewrite <- Zle_Qle. lia.
    - right; left. now subst.
    - right; right. change 1%Q with (inject_Z 1). rewrite <- inject_Z_plus.
      rewrite <- Zle_Qle. lia. }
  apply Qabs_case; intros Ha; apply Qabs_case; intros Hb; lra.
Qed.

(** A tie goes to the larger integer; the last number is the binary
    fraction nearest to 21.6. *)
Lemma Math_round_half_up :
  Math_round (5 # 2) = 3 # 1 /\ Math_round (- 5 # 2) = - 2 # 1 /\
  Math_round (216 # 10) = 22 # 1 /\ Math_round (214 # 10) = 21 # 1 /\
  Math_round (3039929748475085 # 140737488355328) = 22 # 1.
Proof. repeat split; reflexivity. Qed.

(** C6.  A rejected weather request is logged and nothing else happens:
    the state after it, weather snapshot included, is the state before. *)
Theorem fetchWeather_rejected (c : string) (reason : JsError) (st : AppState) :
  let r := step (WeatherSettled c (Rejected reason)) st in
  snd r = [ConsoleError "Error fetching weather:" reason] /\
  fst r = st /\
  weatherData (fst r) = weatherData st /\
  outcome_of (resume (fetchWeather c) (Rejected reason) st) = Normal tt.
Proof.
  cbv zeta. rewrite step_Weather_rejected. repeat split; reflexivity.
Qed.

(** C8.  A fulfilled weather request replaces the snapshot with the
    temperature rounded to a nearest integer (upwards from a half), the
    description and the icon of [weather[0]]; the other state cells stay and
    nothing is logged.  With 21.6, "clear sky", "01d" the snapshot is
    22, "clear sky", "01d". *)
Theorem fetchWeather_fulfilled (c : string) (t : number)
    (w : OpenWeather.Condition) (rest : list OpenWeather.Condition)
    (st : AppState) :
  let data := {| OpenWeather.main := {| OpenWeather.temp := t |};
                 OpenWeather.weather := w :: rest |} in
  let r := step (WeatherSettled c (Fulfilled data)) st in
  weatherData (fst r) =
    Some {| temperature := Math_round t;
            description := OpenWeather.description w;
            icon := OpenWeather.icon w |} /\
  (exists n : Z, Math_round t = inject_Z n /\
     (inject_Z n - (1 # 2) <= t)%Q /\ (t < inject_Z n + (1 # 2))%Q) /\
  (forall m : Z, (Qabs (t - Math_round t) <= Qabs (t - inject_Z m))%Q) /\
  snd r = [] /\
  (stations (fst r), searchQuery (fst r), loading (fst r), currentStation (fst r),
   isPlaying (fst r), audio (fst r), mapCenter (fst r)) =
  (stations st, searchQuery st, loading st, currentStation st,
   isPlaying st, audio st, mapCenter st) /\
  weatherData (fst (step (WeatherSettled c (Fulfilled clear_sky)) st)) =
    Some {| temperature := 22 # 1; description := "clear sky"; icon := "01d" |}.
Proof.
  cbv zeta. unfold clear_sky. rewrite !step_Weather_fulfilled.
  split; [reflexivity|]. split; [apply Math_round_bounds|].
  split; [apply Math_round_nearest|]. repeat split; reflexivity.
Qed.

Example scenario_weather :
  render (fst (run [StationsSettled (Fulfilled [jazz_fm]); Click jazz_fm;
                    WeatherSettled "Paris" (Fulfilled clear_sky)] (fst mounted))) =
  Page (4885 # 100, 235 # 100) [jazz_fm]
       (Some (jazz_fm,
              Some {| temperature := 22 # 1; description := "clear sky";
                      icon := "01d" |})).
Proof. reflexivity. Qed.

(** ** The playback invariant *)

Lemma step_playing ev st :
  isPlaying (fst (step ev st)) =
    match ev with
    | Click s =>
        if is_current (currentStation st) s then negb (isPlaying st) else true
    | _ => isPlaying st
    end.
Proof.
  destruct ev as [[[|first rest]|reason] | c [[[t] [|w rest]]|reason] | v | s].
  - now rewrite step_Stations_empty.
  - now rewrite step_Stations_first.
  - now rewrite step_Stations_rejected.
  - now rewrite step_Weather_no_condition.
  - now rewrite step_Weather_fulfilled.
  - now rewrite step_Weather_rejected.
  - now rewrite step_Change.
  - destruct (is_current (currentStation st) s) eqn:H.
    + rewrite (step_Click_current _ _ H), (handlePlayStation_current_eq _ _ H).
      destruct (isPlaying st); reflexivity.
    + rewrite (step_Click_other _ _ H), (handlePlayStation_other_eq _ _ H).
      reflexivity.
Qed.

Lemma step_keeps_invariant ev st :
  playing_has_station st -> playing_has_station (fst (step ev st)).
Proof.
  unfold playing_has_station. intros Inv.
  rewrite step_playing. destruct (step_weather ev st) as [_ ->].
  destruct ev as [r | c r | v | s]; try exact Inv.
  destruct (is_current (currentStation st) s) eqn:H.
  - intros _. apply is_current_true_iff in H.
    destruct H as [c [H _]]. now exists c.
  - intros _. now exists s.
Qed.

(** C9.  In every state the application can reach (the first render, then
    any sequence of settled requests, keystrokes and clicks), a playing flag
    that is set comes with a current station. *)
Theorem playing_implies_current (st : AppState) :
  reachable st -> isPlaying st = true -> exists c, currentStation st = Some c.
Proof.
  intros R. change (playing_has_station st). induction R.
  - intros H. discriminate H.
  - now apply step_keeps_invariant.
Qed.

Lemma playing_implies_current_witness :
  reachable playing_jazz /\ isPlaying playing_jazz = true /\
  exists c, currentStation playing_jazz = Some c.
Proof.
  split; [exact reachable_playing_jazz|]. split; [reflexivity|].
  exact (playing_implies_current playing_jazz reachable_playing_jazz eq_refl).
Defined.

(* ================================================================== *)
(** * Further properties of the component *)

(** ** The search view under a change of the query *)

Lemma string_app_assoc (a b c : string) :
  ((a ++ b) ++ c = a ++ (b ++ c))%string.
Proof. induction a as [|x a IH]; simpl; [reflexivity | now rewrite IH]. Qed.

Lemma includes_trans a b c :
  includes a b = true -> includes b c = true -> includes a c = true.
Proof.
  rewrite !includes_iff. intros [p1 [s1 ->]] [p2 [s2 ->]].
  exists (p1 ++ p2)%string, (s2 ++ s1)%string.
  now rewrite !string_app_assoc.
Qed.

Lemma station_matches_narrower q q' s :
  includes (toLowerCase q') (toLowerCase q) = true ->
  station_matches q' s = true -> station_matches q s = true.
Proof.
  intros H. unfold station_matches. rewrite !orb_true_iff.
  intros [[M | M] | M]; [left; left | left; right | right];
    exact (includes_trans _ _ _ M H).
Qed.

Lemma filter_through (f g : RadioStation -> bool) l :
  (forall s, g s = true -> f s = true) ->
  filter g (filter f l) = filter g l.
Proof.
  intros H. induction l as [|s l IH]; simpl; [reflexivity|].
  destruct (f s) eqn:F; simpl.
  - now rewrite IH.
  - destruct (g s) eqn:G; [|exact IH].
    apply H in G. congruence.
Qed.

(** X1.  When the lower-cased query [q] occurs in the lower-cased query
    [q'], the view of [q'] is the view of [q] filtered by [q']: every
    station shown for [q'] was shown for [q], and there are no more of
    them. *)
Theorem filteredStations_narrows (S : list RadioStation) (q q' : string) :
  includes (toLowerCase q') (toLowerCase q) = true ->
  filteredStations (filteredStations S q) q' = filteredStations S q' /\
  (forall s, In s (filteredStations S q') -> In s (filteredStations S q)) /\
  (length (filteredStations S q') <= length (filteredStations S q))%nat.
Proof.
  intros H.
  assert (E : filteredStations (filteredStations S q) q' = filteredStations S q').
  { apply filter_through. intros s. now apply station_matches_narrower. }
  split; [exact E|]. split.
  - intros s Hs. rewrite <- E in Hs. unfold filteredStations in Hs at 1.
    now apply filter_In in Hs.
  - rewrite <- E. unfold filteredStations at 1. apply filter_length_le.
Qed.

Lemma filteredStations_narrows_witness :
  includes (toLowerCase "fra") (toLowerCase "FR") = true /\
  filteredStations (filteredStations [jazz_fm; tokyo_fm; radio_nova] "FR") "fra" =
  filteredStations [jazz_fm; tokyo_fm; radio_nova] "fra".
Proof.
  assert (H : includes (toLowerCase "fra") (toLowerCase "FR") = true)
    by reflexivity.
  split; [exact H|].
  exact (proj1 (filteredStations_narrows [jazz_fm; tokyo_fm; radio_nova] _ _ H)).
Defined.

(** X2.  Two queries of Basic Latin characters that differ in the case of
    the letters A to Z only give the same view, whatever the texts of the
    stations are. *)
Theorem filteredStations_case (S : list RadioStation) (q q' : string) :
  basic_latin q = true -> eq_ignoring_case q q' ->
  filteredStations S q = filteredStations S q'.
Proof.
  intros B H. pose proof (eq_ignoring_case_basic _ _ H B) as B'.
  apply eq_ignoring_case_iff in H.
  unfold filteredStations. apply filter_ext. intros s.
  unfold station_matches.
  now rewrite (toLowerCase_basic_latin _ B), (toLowerCase_basic_latin _ B'), H.
Qed.

Lemma filteredStations_case_witness :
  basic_latin "PaRiS" = true /\ eq_ignoring_case "PaRiS" "paris" /\
  filteredStations [jazz_fm; tokyo_fm; kosmos] "PaRiS" =
  filteredStations [jazz_fm; tokyo_fm; kosmos] "paris".
Proof.
  assert (H : eq_ignoring_case "PaRiS" "paris").
  { apply eq_ignoring_case_iff. reflexivity. }
  split; [reflexivity|]. split; [exact H|].
  exact (filteredStations_case [jazz_fm; tokyo_fm; kosmos] "PaRiS" "paris"
           eq_refl H).
Defined.

(** ** Event by event *)

(** Splits on the event, and for a click on whether the station is the
    current one, and rewrites [step] to its value. *)
Ltac step_cases ev st :=
  destruct ev as [[[|? ?]|?] | ? [[[?] [|? ?]]|?] | ? | ?];
  [ rewrite ?step_Stations_empty
  | rewrite ?step_Stations_first
  | rewrite ?step_Stations_rejected
  | rewrite ?step_Weather_no_condition
  | rewrite ?step_Weather_fulfilled
  | rewrite ?step_Weather_rejected
  | rewrite ?step_Change
  | match goal with
    | |- context [step (Click ?s) st] =>
        let H := fresh "Hcur" in
        destruct (is_current (currentStation st) s) eqn:H;
        [ rewrite ?(step_Click_current _ _ H), ?(handlePlayStation_current_eq _ _ H)
        | rewrite ?(step_Click_other _ _ H), ?(handlePlayStation_other_eq _ _ H) ]
    end ].

Lemma run_cons ev evs st :
  fst (run (ev :: evs) st) = fst (run evs (fst (step ev st))) /\
  snd (run (ev :: evs) st) =
    snd (step ev st) ++ snd (run evs (fst (step ev st))).
Proof.
  cbn [run]. destruct (step ev st) as [st1 t1]. cbn [fst snd].
  destruct (run evs st1) as [st2 t2]. split; reflexivity.
Qed.

(** X4.  No handler lets an exception escape, whatever the answer of a service
    was: a rejection and a read on [undefined] end in the [catch] block, and
    the render after the handler throws nothing either. *)
Theorem handlers_never_throw (ev : Event) (st : AppState) :
  outcome_of (dispatch ev st) = Normal tt /\
  outcome_of ((dispatch ev ;; commit st) st) = Normal tt.
Proof.
  assert (H : outcome_of (dispatch ev st) = Normal tt).
  { destruct ev as [[[|first rest]|reason] | c [[[t] [|w rest]]|reason] | v | s];
      try reflexivity.
    cbn [dispatch]. destruct (is_current (currentStation st) s) eqn:E.
    - now rewrite (handlePlayStation_current_eq _ _ E).
    - now rewrite (handlePlayStation_other_eq _ _ E). }
  split; [exact H|].
  cbv [bind]. destruct (dispatch ev st) as [[o st1] t1].
  cbn in H. subst o. cbv [commit bind rendered].
  destruct (Object_is (currentStation st) (currentStation st1)); [reflexivity|].
  cbv [effect_currentStation bind rendered].
  destruct (currentStation st1); reflexivity.
Qed.

(** X5.  An answer of the weather service whose [weather] array is empty is
    handled like a rejection: the [TypeError] of [weather[0].description] is
    logged, and no part of the answer, its temperature included, reaches the
    state. *)
Theorem fetchWeather_without_condition (c : string) (m : OpenWeather.Main)
    (st : AppState) :
  let data := {| OpenWeather.main := m; OpenWeather.weather := [] |} in
  let r := step (WeatherSettled c (Fulfilled data)) st in
  fst r = st /\
  snd r = [ConsoleError "Error fetching weather:"
             (TypeError "Cannot read properties of undefined")] /\
  outcome_of (resume (fetchWeather c) (Fulfilled data) st) = Normal tt.
Proof.
  cbv zeta. rewrite step_Weather_no_condition. repeat split; reflexivity.
Qed.

(** ** The audio element *)

Lemma step_keeps_audio ev st :
  audio_source_follows st -> audio_source_follows (fst (step ev st)).
Proof.
  unfold audio_source_follows. intros Hs.
  step_cases ev st; try assumption.
  - cbn. destruct (isPlaying st); exact Hs.
  - reflexivity.
Qed.

Lemma reachable_audio st : reachable st -> audio_source_follows st.
Proof.
  induction 1.
  - reflexivity.
  - now apply step_keeps_audio.
Qed.


(** X6.  In every reachable state the source that the component gave the
    audio element is the stream of the current station (the empty string
    before any station was chosen).  So a marker that shows the pause icon
    has the id of the station whose stream is loaded. *)
Theorem audio_follows_state (st : AppState) :
  reachable st ->
  Audio.src (audio st) =
    match currentStation st with Some c => url c | None => "" end /\
  (forall s, button_icon st s = PauseIcon ->
     exists c, currentStation st = Some c /\ id c = id s /\
       Audio.src (audio st) = url c).
Proof.
  intros R. pose proof (reachable_audio st R) as Hs.
  unfold audio_source_follows in Hs.
  split; [exact Hs|].
  intros s. unfold button_icon.
  destruct (is_current (currentStation st) s) eqn:E; [|discriminate].
  intros _.
  apply is_current_true_iff in E. destruct E as [c [Hc Hid]].
  exists c. rewrite Hc in Hs. auto.
Qed.

Lemma audio_follows_state_witness :
  reachable playing_jazz /\
  Audio.src (audio playing_jazz) = "https://stream.example/jazz".
Proof.
  split; [exact reachable_playing_jazz|].
  exact (proj1 (audio_follows_state playing_jazz reachable_playing_jazz)).
Defined.



(** ** The page *)

Lemma step_loading ev st :
  loading (fst (step ev st)) =
    match ev with
    | StationsSettled _ => false
    | _ => loading st
    end.
Proof. step_cases ev st; try reflexivity; destruct (isPlaying st); reflexivity. Qed.

Lemma run_loading evs st :
  loading st = false -> loading (fst (run evs st)) = false.
Proof.
  revert st; induction evs as [|ev evs IH]; intros st H; [exact H|].
  rewrite (proj1 (run_cons ev evs st)). apply IH.
  rewrite step_loading. now destruct ev.
Qed.

(** X8.  Once the spinner is gone it does not come back: no event sets the
    loading flag again, so every later render is the page. *)
Theorem spinner_never_returns (evs : list Event) (st : AppState) :
  loading st = false ->
  loading (fst (run evs st)) = false /\
  render (fst (run evs st)) <> Spinner.
Proof.
  intros H. pose proof (run_loading evs st H) as L.
  split; [exact L|]. unfold render. rewrite L. discriminate.
Qed.

Lemma spinner_never_returns_witness :
  loading playing_jazz = false /\
  render (fst (run [Change "nova"; Click radio_nova;
                    WeatherSettled "Paris" (Rejected (AxiosError "timeout"))]
                   playing_jazz)) <> Spinner.
Proof.
  assert (H : loading playing_jazz = false) by reflexivity.
  split; [exact H|].
  exact (proj2 (spinner_never_returns _ playing_jazz H)).
Defined.

(** X9.  The button of a marker changes its icon on every click on it, whether
    the click starts, pauses or resumes the station; and after a click on
    [s] a marker that shows the pause icon has the id of [s]. *)
Theorem button_icon_flips (st : AppState) (s : RadioStation) :
  button_icon (fst (step (Click s) st)) s =
    match button_icon st s with
    | PauseIcon => PlayArrowIcon
    | PlayArrowIcon => PauseIcon
    end /\
  (forall s', button_icon (fst (step (Click s) st)) s' = PauseIcon -> id s' = id s).
Proof.
  unfold button_icon.
  destruct (is_current (currentStation st) s) eqn:H.
  - rewrite (step_Click_current _ _ H), (handlePlayStation_current_eq _ _ H).
    split.
    + destruct (isPlaying st); cbn; rewrite H; reflexivity.
    + intros s'.
      replace (currentStation _) with (currentStation st)
        by (destruct (isPlaying st); reflexivity).
      destruct (is_current (currentStation st) s') eqn:H'; [|discriminate].
      intros _.
      apply is_current_true_iff in H, H'.
      destruct H as [c [Hc Hid]], H' as [c' [Hc' Hid']].
      rewrite Hc in Hc'. injection Hc' as <-. congruence.
  - rewrite (step_Click_other _ _ H), (handlePlayStation_other_eq _ _ H).
    cbn. rewrite String.eqb_refl. split; [reflexivity|].
    intros s'. destruct (String.eqb (id s) (id s')) eqn:E; [|discriminate].
    intros _. apply String.eqb_eq in E. now symmetry.
Qed.

(** X10.  Typing in the search field and clicking a station do not disturb each
    other: in either order they lead to the same state, and make the same
    calls. *)
Theorem search_and_click_commute (v : string) (s : RadioStation) (st : AppState) :
  run [Change v; Click s] st = run [Click s; Change v] st.
Proof.
  apply injective_projections.
  - rewrite !(proj1 (run_cons _ _ _)). cbn [run fst].
    rewrite !step_Change. cbn [fst].
    destruct (is_current (currentStation st) s) eqn:H.
    + assert (H' : is_current
                (currentStation (state_of (setSearchQuery v st))) s = true)
        by exact H.
      rewrite (step_Click_current _ _ H), (step_Click_current _ _ H').
      rewrite (handlePlayStation_current_eq _ _ H),
              (handlePlayStation_current_eq _ _ H').
      destruct (isPlaying st) eqn:P; cbn; rewrite ?P; reflexivity.
    + assert (H' : is_current
                (currentStation (state_of (setSearchQuery v st))) s = false)
        by exact H.
      rewrite (step_Click_other _ _ H), (step_Click_other _ _ H').
      rewrite (handlePlayStation_other_eq _ _ H),
              (handlePlayStation_other_eq _ _ H').
      reflexivity.
  - rewrite !(proj2 (run_cons _ _ _)). cbn [run snd].
    rewrite !step_Change. cbn [fst snd].
    destruct (is_current (currentStation st) s) eqn:H.
    + assert (H' : is_current
                (currentStation (state_of (setSearchQuery v st))) s = true)
        by exact H.
      rewrite (step_Click_current _ _ H), (step_Click_current _ _ H').
      destruct (isPlaying st) eqn:P; cbn; rewrite ?P; reflexivity.
    + assert (H' : is_current
                (currentStation (state_of (setSearchQuery v st))) s = false)
        by exact H.
      rewrite (step_Click_other _ _ H), (step_Click_other _ _ H').
      cbn. reflexivity.
Qed.

(** ** The weather snapshot *)

Lemma step_weatherData ev st :
  weatherData (fst (step ev st)) =
    match ev with
    | WeatherSettled _ (Fulfilled data) =>
        match snapshot_of data with
        | Some w => Some w
        | None => weatherData st
        end
    | _ => weatherData st
    end.
Proof. step_cases ev st; try reflexivity; destruct (isPlaying st); reflexivity. Qed.

(** X12.  The answer of the weather service is stored whichever city it was asked
    for and whichever station is current by then.  When the user goes from
    [a] to [b] and the answer for [a] comes last, the side panel shows the
    station [b] and, under the city of [b], the weather asked for [a]. *)
Theorem late_answer_is_shown (st : AppState) (a b : RadioStation)
    (answer_b : Settled OpenWeather.Response)
    (t : number) (w : OpenWeather.Condition) (rest : list OpenWeather.Condition) :
  id a <> id b ->
  let answer_a :=
    Fulfilled {| OpenWeather.main := {| OpenWeather.temp := t |};
                 OpenWeather.weather := w :: rest |} in
  let shown :=
    {| temperature := Math_round t;
       description := OpenWeather.description w;
       icon := OpenWeather.icon w |} in
  let st' :=
    fst (run [Click a; Click b; WeatherSettled (city b) answer_b;
              WeatherSettled (city a) answer_a] st) in
  currentStation st' = Some b /\
  weatherData st' = Some shown /\
  option_map details_weather (side_panel st') = Some (Some (weather_box b shown)).
Proof.
  intros Hab. cbv zeta.
  rewrite !(proj1 (run_cons _ _ _)). cbn [run fst].
  set (st1 := fst (step (Click a) st)).
  set (st2 := fst (step (Click b) st1)).
  set (st3 := fst (step (WeatherSettled (city b) answer_b) st2)).
  assert (H1 : is_current (currentStation st1) a = true).
  { unfold st1. rewrite (proj2 (step_weather (Click a) st)).
    destruct (is_current (currentStation st) a) eqn:E; [exact E|].
    simpl. apply String.eqb_refl. }
  assert (H2 : currentStation st2 = Some b).
  { unfold st2. rewrite (proj2 (step_weather (Click b) st1)).
    destruct (is_current (currentStation st1) b) eqn:E; [|reflexivity].
    apply is_current_true_iff in H1, E.
    destruct H1 as [c [Hc Hid]], E as [c' [Hc' Hid']].
    rewrite Hc in Hc'. injection Hc' as <-. congruence. }
  assert (H3 : currentStation st3 = Some b).
  { unfold st3. now rewrite (proj2 (step_weather _ st2)). }
  assert (Hc : currentStation
                 (fst (step (WeatherSettled (city a)
                         (Fulfilled {| OpenWeather.main := {| OpenWeather.temp := t |};
                                       OpenWeather.weather := w :: rest |})) st3))
               = Some b).
  { now rewrite (proj2 (step_weather _ st3)). }
  assert (Hw : weatherData
                 (fst (step (WeatherSettled (city a)
                         (Fulfilled {| OpenWeather.main := {| OpenWeather.temp := t |};
                                       OpenWeather.weather := w :: rest |})) st3))
               = Some {| temperature := Math_round t;
                         description := OpenWeather.description w;
                         icon := OpenWeather.icon w |}).
  { now rewrite step_weatherData. }
  split; [exact Hc|]. split; [exact Hw|].
  unfold side_panel. rewrite Hc, Hw. reflexivity.
Qed.

Lemma late_answer_is_shown_witness :
  id jazz_fm <> id tokyo_fm /\
  option_map details_weather
    (side_panel
       (fst (run [Click jazz_fm; Click tokyo_fm;
                  WeatherSettled "Tokyo" (Fulfilled light_rain);
                  WeatherSettled "Paris" (Fulfilled clear_sky)] (fst mounted)))) =
  Some (Some {| box_heading := "Weather in Tokyo";
                box_image := "https://openweathermap.org/img/wn/01d@2x.png";
                box_alt := "clear sky";
                box_degrees := 22 # 1;
                box_text := "clear sky" |}).
Proof.
  assert (H : id jazz_fm <> id tokyo_fm) by discriminate.
  split; [exact H|].
  exact (proj2 (proj2 (late_answer_is_shown (fst mounted) jazz_fm tokyo_fm
                         (Fulfilled light_rain) (216 # 10)
                         {| OpenWeather.description := "clear sky";
                            OpenWeather.icon := "01d" |} [] H))).
Defined.

(** ** Sessions *)

Lemma session_reachable st awaited : session st awaited -> reachable st.
Proof.
  induction 1; [apply reachable_mount | |]; now apply reachable_step.
Qed.

Lemma singleton_split {A} (before after : list A) (x y : A) :
  before ++ x :: after = [y] -> before = [] /\ x = y /\ after = [].
Proof.
  destruct before as [|z before]; simpl; intros H.
  - injection H as -> ->. auto.
  - injection H as _ H. destruct before; discriminate H.
Qed.

(** The page after the answer of the directory. *)
Lemma page_after_load response :
  page_invariant (fst (step (StationsSettled response) (fst mounted)))
                 ([] ++ [] ++ requests (snd (step (StationsSettled response)
                                                 (fst mounted)))).
Proof.
  destruct response as [[|first rest]|reason].
  - rewrite step_Stations_empty. constructor; cbn.
    + reflexivity.
    + discriminate.
    + now left.
    + tauto.
    + intros [H|H]; now elim H.
  - rewrite step_Stations_first. constructor; cbn.
    + reflexivity.
    + discriminate.
    + right. exists first. auto.
    + tauto.
    + intros [H|H]; now elim H.
  - rewrite step_Stations_rejected. constructor; cbn.
    + reflexivity.
    + discriminate.
    + now left.
    + tauto.
    + intros [H|H]; now elim H.
Qed.

Lemma page_after_weather st before c after response :
  page_invariant st (before ++ request (fetchWeather c) :: after) ->
  page_invariant (fst (step (WeatherSettled c response) st))
                 (before ++ after ++
                  requests (snd (step (WeatherSettled c response) st))).
Proof.
  intros [L C M A W].
  assert (Hcur : currentStation st <> None).
  { apply W. left. now destruct before. }
  assert (A' : forall req, In req (before ++ after ++ []) ->
               exists s, In s (stations st) /\ req = request (fetchWeather (city s))).
  { intros req Hin. apply A. rewrite app_nil_r in Hin.
    apply in_app_or in Hin. apply in_or_app.
    destruct Hin; [now left | right; now right]. }
  destruct response as [[[t] [|w rest]]|reason].
  - rewrite step_Weather_no_condition. constructor; cbn; auto.
  - rewrite step_Weather_fulfilled. constructor; cbn; auto.
  - rewrite step_Weather_rejected. constructor; cbn; auto.
Qed.

Lemma page_after_change st awaited v :
  page_invariant st awaited ->
  page_invariant (fst (step (Change v) st))
                 (awaited ++ requests (snd (step (Change v) st))).
Proof.
  intros [L C M A W]. rewrite step_Change. cbn. rewrite app_nil_r.
  constructor; cbn; auto.
Qed.

Lemma page_after_click st awaited s :
  page_invariant st awaited ->
  In s (filteredStations (stations st) (searchQuery st)) ->
  page_invariant (fst (step (Click s) st))
                 (awaited ++ requests (snd (step (Click s) st))).
Proof.
  intros [L C M A W] Hs.
  unfold filteredStations in Hs. apply filter_In in Hs. destruct Hs as [Hs _].
  destruct (is_current (currentStation st) s) eqn:H.
  - rewrite (step_Click_current _ _ H), (handlePlayStation_current_eq _ _ H).
    replace (requests _) with (@nil Effect)
      by (destruct (isPlaying st); reflexivity).
    rewrite app_nil_r.
    destruct (isPlaying st); constructor; cbn; auto.
  - rewrite (step_Click_other _ _ H), (handlePlayStation_other_eq _ _ H).
    constructor; cbn.
    + exact L.
    + intros c [= <-]. exact Hs.
    + right. exists s. auto.
    + intros req Hin. apply in_app_or in Hin. destruct Hin as [Hin | [<- | []]].
      * now apply A.
      * exists s. auto.
    + discriminate.
Qed.

Lemma session_invariant_holds st awaited :
  session st awaited -> session_invariant st awaited.
Proof.
  induction 1 as [| ev st awaited _ IH Hans Hoff
                  | ev st before req after _ IH Hans].
  - left. split; reflexivity.
  - right. destruct IH as [[-> _] | Inv].
    + destruct ev; try discriminate Hans; cbn in Hoff;
        [discriminate Hoff | destruct Hoff as [Hoff _]; discriminate Hoff].
    + destruct ev as [r | c r | v | s]; try discriminate Hans.
      * now apply page_after_change.
      * apply page_after_click; [exact Inv | apply Hoff].
  - right. destruct IH as [[-> Haw] | Inv].
    + apply singleton_split in Haw. destruct Haw as [-> [-> ->]].
      destruct ev as [r | c r | v | s]; try discriminate Hans.
      apply page_after_load.
    + destruct ev as [r | c r | v | s]; try discriminate Hans.
      * cbn in Hans. injection Hans as <-.
        destruct (inv_awaited _ _ Inv (request fetchStations)) as [s [_ E]].
        { apply in_or_app. right. now left. }
        discriminate E.
      * cbn in Hans. injection Hans as <-.
        now apply page_after_weather.
Qed.

Lemma session_playing_jazz :
  session playing_jazz [request (fetchWeather "Paris")].
Proof.
  pose proof session_mount as S0.
  pose proof (session_settle (StationsSettled (Fulfilled [jazz_fm; radio_nova]))
                (fst mounted) [] (request fetchStations) [] S0 eq_refl) as S1.
  refine (session_user (Click jazz_fm) _ _ S1 eq_refl _).
  split; [reflexivity | left; reflexivity].
Qed.

Lemma step_stations ev st :
  stations (fst (step ev st)) =
    match ev with
    | StationsSettled (Fulfilled data) => data
    | _ => stations st
    end.
Proof. step_cases ev st; try reflexivity; destruct (isPlaying st); reflexivity. Qed.

(** X13.  While the spinner shows, nothing has happened since the first render
    and the one awaited request is the directory's.  Once the page shows,
    that request is awaited no more, so it is answered at most once, and no
    event that can still occur changes the station collection. *)
Theorem directory_answers_once (st : AppState) (awaited : list Effect) :
  session st awaited ->
  (loading st = true -> st = fst mounted /\ awaited = [request fetchStations]) /\
  (loading st = false ->
     ~ In (request fetchStations) awaited /\
     forall ev, (forall req, answers ev = Some req -> In req awaited) ->
       stations (fst (step ev st)) = stations st).
Proof.
  intros S. destruct (session_invariant_holds _ _ S) as [[-> ->] | Inv].
  - split; [auto | discriminate].
  - assert (N : ~ In (request fetchStations) awaited).
    { intros Hin. destruct (inv_awaited _ _ Inv _ Hin) as [s [_ E]].
      discriminate E. }
    split.
    + intros L. rewrite (inv_loaded _ _ Inv) in L. discriminate L.
    + intros _. split; [exact N|].
      intros ev Hev. rewrite step_stations.
      destruct ev as [r | c r | v | s]; try reflexivity.
      elim N. now apply Hev.
Qed.

Lemma directory_answers_once_witness :
  session playing_jazz [request (fetchWeather "Paris")] /\
  loading playing_jazz = false /\
  ~ In (request fetchStations) [request (fetchWeather "Paris")].
Proof.
  split; [exact session_playing_jazz|]. split; [reflexivity|].
  exact (proj1 (proj2 (directory_answers_once _ _ session_playing_jazz) eq_refl)).
Defined.

(** X14.  The current station is always one of the loaded stations, and the map
    center is the position the state was created with or the position of a
    loaded station. *)
Theorem current_station_is_loaded (st : AppState) (awaited : list Effect) :
  session st awaited ->
  (forall c, currentStation st = Some c -> In c (stations st)) /\
  (mapCenter st = default_center \/
   exists s, In s (stations st) /\ mapCenter st = (geo_lat s, geo_long s)).
Proof.
  intros S. destruct (session_invariant_holds _ _ S) as [[-> ->] | Inv].
  - split; [discriminate | now left].
  - split; [apply (inv_current _ _ Inv) | apply (inv_center _ _ Inv)].
Qed.

Lemma current_station_is_loaded_witness :
  session playing_jazz [request (fetchWeather "Paris")] /\
  currentStation playing_jazz = Some jazz_fm /\
  In jazz_fm (stations playing_jazz).
Proof.
  split; [exact session_playing_jazz|]. split; [reflexivity|].
  exact (proj1 (current_station_is_loaded _ _ session_playing_jazz) jazz_fm eq_refl).
Defined.

(** X15.  A weather snapshot is present only when a station is current, so the
    side panel shows every snapshot there is; and a weather request that is
    awaited asks for the city of a loaded station while a station is
    current. *)
Theorem weather_needs_station (st : AppState) (awaited : list Effect) :
  session st awaited ->
  (forall w, weatherData st = Some w ->
     exists c, currentStation st = Some c /\
       option_map details_weather (side_panel st) = Some (Some (weather_box c w))) /\
  (forall req, In req awaited -> is_weather_request req = true ->
     currentStation st <> None /\
     exists s, In s (stations st) /\ req = request (fetchWeather (city s))).
Proof.
  intros S. destruct (session_invariant_holds _ _ S) as [[-> ->] | Inv].
  - split; [discriminate|]. intros req [<- | []] H. discriminate H.
  - split.
    + intros w Hw.
      destruct (currentStation st) as [c|] eqn:Hc.
      * exists c. split; [reflexivity|].
        unfold side_panel. now rewrite Hc, Hw.
      * elim (inv_weather _ _ Inv); [|exact Hc]. right. now rewrite Hw.
    + intros req Hin _. split.
      * apply (inv_weather _ _ Inv). left. intros ->. exact Hin.
      * now apply (inv_awaited _ _ Inv).
Qed.

Lemma weather_needs_station_witness :
  session playing_jazz [request (fetchWeather "Paris")] /\
  currentStation playing_jazz <> None /\
  exists s, In s (stations playing_jazz) /\
    request (fetchWeather "Paris") = request (fetchWeather (city s)).
Proof.
  split; [exact session_playing_jazz|].
  exact (proj2 (weather_needs_station _ _ session_playing_jazz)
           (request (fetchWeather "Paris")) (or_introl eq_refl) eq_refl).
Defined.

(** ** Pause and resume *)

(** X16.  Two clicks on the current station bring back every state cell,
    not the playing flag alone, and leave the source of the audio element;
    the calls they make are a pause followed by a play, or a play followed
    by a pause, and nothing else. *)
Theorem two_clicks_restore (st : AppState) (s : RadioStation) :
  is_current (currentStation st) s = true ->
  let st2 := fst (run [Click s; Click s] st) in
  (stations st2, searchQuery st2, loading st2, currentStation st2,
   isPlaying st2, weatherData st2, mapCenter st2, Audio.src (audio st2)) =
  (stations st, searchQuery st, loading st, currentStation st,
   isPlaying st, weatherData st, mapCenter st, Audio.src (audio st)) /\
  snd (run [Click s; Click s] st) =
    if isPlaying st then [AudioPause; AudioPlay] else [AudioPlay; AudioPause].
Proof.
  intros H. cbv zeta.
  rewrite !(proj1 (run_cons _ _ _)), !(proj2 (run_cons _ _ _)). cbn [run fst snd].
  assert (H1 : is_current (currentStation (fst (step (Click s) st))) s = true).
  { rewrite (proj2 (step_weather (Click s) st)). now rewrite H. }
  rewrite (step_Click_current _ _ H1), (handlePlayStation_current_eq _ _ H1).
  rewrite (step_Click_current _ _ H), (handlePlayStation_current_eq _ _ H).
  destruct (isPlaying st) eqn:P; cbn; rewrite ?P; split; reflexivity.
Qed.

Lemma two_clicks_restore_witness :
  is_current (currentStation playing_jazz) jazz_fm = true /\
  snd (run [Click jazz_fm; Click jazz_fm] playing_jazz) = [AudioPause; AudioPlay].
Proof.
  assert (H : is_current (currentStation playing_jazz) jazz_fm = true)
    by reflexivity.
  split; [exact H|].
  exact (proj2 (two_clicks_restore _ _ H)).
Defined.
